(** * Mini-Stripe: payment links and their redemption

    A shallow embedding of the payment-link routes of the Express server:

    - [POST /pay/:linkId/process]  (src/routes/public.js, the redemption handler,
      with its helpers [getCardBrand] and [simulateBankAPI]);
    - [POST /api/payments/links] and [PUT /api/payments/links/:linkId]
      (src/routes/payments.js, link creation and metadata update);
    - the two tables [payment_links] and [transactions] with the column and
      table constraints of migrations 002 and 003.

    The handlers are [async] functions: between two [await]s the code runs
    without interruption, and every [await query(...)] is one SQL statement,
    executed atomically by PostgreSQL.  A handler run is therefore a short
    sequence of atomic segments, and concurrent requests interleave at segment
    boundaries.  The embedding keeps exactly this granularity: a task carries a
    program counter naming the [await] it is parked on, and [step] runs one
    segment of one task against the shared tables. *)

From Stdlib Require Import ZArith String Ascii List.
From Stdlib Require QArith.
From stdpp Require Import base list strings.

Open Scope string_scope.
Open Scope Z_scope.

(* ================================================================= *)
(** ** JavaScript strings: the few primitives the handlers use *)

Module Js.

Definition is_digit (c : ascii) : bool :=
  let n := nat_of_ascii c in (48 <=? n)%nat && (n <=? 57)%nat.

Definition digit_value (c : ascii) : Z := Z.of_nat (nat_of_ascii c) - 48.

(** White space as [String.prototype.trim] and [parseInt] skip it
    (the ASCII part: TAB, LF, VT, FF, CR, SPACE). *)
Definition is_space (c : ascii) : bool :=
  let n := nat_of_ascii c in
  ((9 <=? n)%nat && (n <=? 13)%nat) || (n =? 32)%nat.

Fixpoint all_chars (p : ascii -> bool) (s : string) : bool :=
  match s with
  | EmptyString => true
  | String c r => p c && all_chars p r
  end.

(** [/^\d+$/.test(s)] *)
Definition matches_digits (s : string) : bool :=
  match s with
  | EmptyString => false
  | _ => all_chars is_digit s
  end.

(** validator's [isLength({min, max})] on an ASCII string. *)
Definition isLength (lo hi : nat) (s : string) : bool :=
  (lo <=? String.length s)%nat && (String.length s <=? hi)%nat.

(** [s.slice(-k)]: the last [k] characters, the whole string when shorter. *)
Definition slice_last (k : nat) (s : string) : string :=
  let n := String.length s in
  substring (n - k) k s.

Fixpoint ltrim (s : string) : string :=
  match s with
  | String c r => if is_space c then ltrim r else s
  | EmptyString => EmptyString
  end.

Fixpoint rev_onto (acc s : string) : string :=
  match s with
  | EmptyString => acc
  | String c r => rev_onto (String c acc) r
  end.

Definition rev (s : string) : string := rev_onto EmptyString s.

Definition trim (s : string) : string := rev (ltrim (rev (ltrim s))).

(** [s.startsWith(p)], used for the anchored brand patterns. *)
Fixpoint starts_with (p s : string) : bool :=
  match p, s with
  | EmptyString, _ => true
  | String a p', String b s' => Ascii.eqb a b && starts_with p' s'
  | String _ _, EmptyString => false
  end.

(** [parseInt(s)] in base ten: leading white space, an optional sign, then
    the longest prefix of decimal digits; [None] is [NaN].  (The
    hexadecimal form [0x..] is read as JavaScript does: see [hex_prefix].) *)
Fixpoint digits_prefix (acc : option Z) (s : string) : option Z :=
  match s with
  | String c r =>
      if is_digit c
      then digits_prefix (Some (10 * default 0 acc + digit_value c)) r
      else acc
  | EmptyString => acc
  end.

Definition hex_value (c : ascii) : option Z :=
  let n := nat_of_ascii c in
  if is_digit c then Some (digit_value c)
  else if (97 <=? n)%nat && (n <=? 102)%nat then Some (Z.of_nat n - 87)
  else if (65 <=? n)%nat && (n <=? 70)%nat then Some (Z.of_nat n - 55)
  else None.

Fixpoint hex_prefix (acc : option Z) (s : string) : option Z :=
  match s with
  | String c r =>
      match hex_value c with
      | Some d => hex_prefix (Some (16 * default 0 acc + d)) r
      | None => acc
      end
  | EmptyString => acc
  end.

Definition parse_magnitude (s : string) : option Z :=
  if starts_with "0x" s || starts_with "0X" s
  then hex_prefix None (substring 2 (String.length s - 2) s)
  else digits_prefix None s.

Definition parseInt (s : string) : option Z :=
  match ltrim s with
  | String "-" r => Z.opp <$> parse_magnitude r
  | String "+" r => parse_magnitude r
  | r => parse_magnitude r
  end.

(** [parseInt(x) || d]: [NaN] and [0] are falsy. *)
Definition or_default (x : option Z) (d : Z) : Z :=
  match x with
  | Some n => if n =? 0 then d else n
  | None => d
  end.

End Js.

(* ================================================================= *)
(** ** What the handlers take from outside the repository

    Library calls whose code is not part of the repository, the server's
    calendar, and the process environment. *)

Record Runtime := {
  (** validator.js [isEmail] *)
  isEmail : string -> bool;
  (** validator.js [normalizeEmail] (a sanitizer: it rewrites the field) *)
  normalizeEmail : string -> string;
  (** validator.js [isISO8601] together with [moment(s).toDate()]: the instant
      (milliseconds since the epoch) an accepted string denotes *)
  parseISO8601 : string -> option Z;
  (** the calendar month of an instant in server-local time, numbered
      [12 * year + (month - 1)]: what [isBefore(_, 'month')] compares *)
  monthIndex : Z -> Z;
  (** [new Date().getFullYear()], evaluated once when the router is loaded *)
  startupYear : Z;
  (** [process.env.PAYMENT_LINK_EXPIRY_HOURS] *)
  PAYMENT_LINK_EXPIRY_HOURS : option string
}.

(** Instants are milliseconds since the epoch. *)
Definition ms_per_hour : Z := 3600000.

(* ================================================================= *)
(** ** Rows of the two tables *)

Inductive TxStatus := pending | processing | completed | failed | cancelled.

#[global] Instance TxStatus_eq_dec : EqDecision TxStatus.
Proof. solve_decision. Defined.

(** The terminal statuses of the transaction state machine. *)
Definition terminal (s : TxStatus) : bool :=
  match s with
  | completed | failed | cancelled => true
  | pending | processing => false
  end.

(** [payment_links] (migration 002).  [id] is the primary key, [link_id] the
    public token.  The amount is kept as the rational received; rounding to
    [DECIMAL(10,2)] is not modelled. *)
Record PaymentLink := {
  pl_id : string;
  pl_user_id : string;
  pl_link_id : string;
  pl_amount : QArith_base.Q;
  pl_currency : string;
  pl_description : option string;
  pl_expires_at : option Z;
  pl_is_active : bool;
  pl_max_uses : option Z;
  pl_current_uses : Z;
  pl_created_at : Z;
  pl_updated_at : Z
}.

(** [transactions] (migration 003). *)
Record Transaction := {
  tx_id : string;
  tx_payment_link_id : string;
  tx_payer_email : string;
  tx_payer_name : string;
  tx_amount : QArith_base.Q;
  tx_currency : string;
  tx_status : TxStatus;
  tx_payment_method : string;
  tx_card_last4 : string;
  tx_card_brand : string;
  tx_bank_response_code : option string;
  tx_bank_response_message : option string;
  tx_failure_reason : option string;
  tx_processed_at : option Z;
  tx_created_at : Z;
  tx_updated_at : Z
}.

(* ================================================================= *)
(** ** The database layer

    [query] (src/database/connection.js) forwards one statement to the pool
    and rethrows whatever the pool throws.  A statement either returns or
    throws; it throws when the connection fails (the [fault] flag, chosen by
    the environment) or when PostgreSQL rejects the statement because a row it
    writes breaks a column type or a constraint of the migrations. *)

Inductive DbError :=
| ConnectionError                        (* the pool could not run the statement *)
| StringTooLong                          (* 22001, value too long for VARCHAR(n) *)
| NumericOutOfRange                      (* 22003, INTEGER out of range *)
| CheckViolation (constraint : string)   (* 23514 *)
| UniqueViolation                        (* 23505 *)
| ForeignKeyViolation.                   (* 23503 *)

Inductive Result (A : Type) :=
| Ok (a : A)
| Err (e : DbError).
Arguments Ok {A} a.
Arguments Err {A} e.

Definition Qzero : QArith_base.Q := QArith_base.Qmake 0 1.
Definition Qcent : QArith_base.Q := QArith_base.Qmake 1 100.
Definition Qpositive (q : QArith_base.Q) : bool := negb (QArith_base.Qle_bool q Qzero).

Definition varchar_fits (n : nat) (s : string) : bool := (String.length s <=? n)%nat.

Definition int4_fits (n : Z) : bool := (-2147483648 <=? n) && (n <=? 2147483647).

(** [CONSTRAINT check_uses_limit CHECK (max_uses IS NULL OR current_uses <= max_uses)] *)
Definition check_uses_limit (pl : PaymentLink) : bool :=
  match pl_max_uses pl with
  | None => true
  | Some m => pl_current_uses pl <=? m
  end.

(** What PostgreSQL checks on a [payment_links] row it is about to store:
    column types first, then the CHECK constraints. *)
Definition payment_link_row_error (pl : PaymentLink) : option DbError :=
  if negb (varchar_fits 50 (pl_link_id pl) && varchar_fits 3 (pl_currency pl))
  then Some StringTooLong
  else if negb (from_option int4_fits true (pl_max_uses pl) && int4_fits (pl_current_uses pl))
  then Some NumericOutOfRange
  else if negb (Qpositive (pl_amount pl))
  then Some (CheckViolation "payment_links_amount_check")
  else if negb (check_uses_limit pl)
  then Some (CheckViolation "check_uses_limit")
  else None.

(** The same for a [transactions] row.  [bank_response_code] is
    [VARCHAR(10)]; the CHECK on [status] holds of every [TxStatus]. *)
Definition transaction_row_error (t : Transaction) : option DbError :=
  if negb (varchar_fits 255 (tx_payer_email t) && varchar_fits 255 (tx_payer_name t)
           && varchar_fits 3 (tx_currency t) && varchar_fits 50 (tx_payment_method t)
           && varchar_fits 4 (tx_card_last4 t) && varchar_fits 20 (tx_card_brand t)
           && from_option (varchar_fits 10) true (tx_bank_response_code t))
  then Some StringTooLong
  else if negb (Qpositive (tx_amount t))
  then Some (CheckViolation "transactions_amount_check")
  else None.

(** [UPDATE table SET ... WHERE P]: every row satisfying [P] is replaced by
    its image under [f]; the statement throws, and changes nothing, as soon as
    one new row is rejected by [chk]. *)
Definition db_update {A : Type} (P : A -> Prop) `{!forall x, Decision (P x)}
    (f : A -> A) (chk : A -> option DbError) (rows : list A) : Result (list A) :=
  match head (omap (fun r => if decide (P r) then chk (f r) else None) rows) with
  | Some e => Err e
  | None => Ok ((fun r => if decide (P r) then f r else r) <$> rows)
  end.

(** [SELECT ... FROM payment_links pl WHERE pl.link_id = $1] *)
Definition select_link_by_link_id (fault : bool) (linkId : string)
    (links : list PaymentLink) : Result (list PaymentLink) :=
  if fault then Err ConnectionError
  else Ok (filter (fun r => pl_link_id r = linkId) links).

(** [INSERT INTO payment_links (...) VALUES (...)]: the row is appended unless
    a column check fails or the primary key [id] or the UNIQUE [link_id] is
    already taken. *)
Definition insert_payment_link (fault : bool) (pl : PaymentLink)
    (links : list PaymentLink) : Result (list PaymentLink) :=
  if fault then Err ConnectionError
  else match payment_link_row_error pl with
       | Some e => Err e
       | None =>
           if bool_decide (Exists (fun r => pl_id r = pl_id pl \/ pl_link_id r = pl_link_id pl) links)
           then Err UniqueViolation
           else Ok (links ++ [pl])%list
       end.

(** [INSERT INTO transactions (...) VALUES (...)]: primary key [id], foreign
    key [payment_link_id] into [payment_links(id)]. *)
Definition insert_transaction (fault : bool) (t : Transaction)
    (links : list PaymentLink) (txs : list Transaction) : Result (list Transaction) :=
  if fault then Err ConnectionError
  else match transaction_row_error t with
       | Some e => Err e
       | None =>
           if bool_decide (Exists (fun r => tx_id r = tx_id t) txs)
           then Err UniqueViolation
           else if bool_decide (Exists (fun l => pl_id l = tx_payment_link_id t) links)
           then Ok (txs ++ [t])%list
           else Err ForeignKeyViolation
       end.

(** The decision object of the bank ([simulateBankAPI]'s return value). *)
Record BankResponse := {
  status : TxStatus;
  responseCode : string;
  responseMessage : string;
  failureReason : option string
}.

Definition set_bank_response (at_ : Z) (b : BankResponse) (t : Transaction) : Transaction :=
  {| tx_id := tx_id t;
     tx_payment_link_id := tx_payment_link_id t;
     tx_payer_email := tx_payer_email t;
     tx_payer_name := tx_payer_name t;
     tx_amount := tx_amount t;
     tx_currency := tx_currency t;
     tx_status := status b;
     tx_payment_method := tx_payment_method t;
     tx_card_last4 := tx_card_last4 t;
     tx_card_brand := tx_card_brand t;
     tx_bank_response_code := Some (responseCode b);
     tx_bank_response_message := Some (responseMessage b);
     tx_failure_reason := failureReason b;
     tx_processed_at := Some at_;
     tx_created_at := tx_created_at t;
     tx_updated_at := at_ |}.

(** [UPDATE transactions SET status = $1, bank_response_code = $2,
    bank_response_message = $3, failure_reason = $4,
    processed_at = CURRENT_TIMESTAMP WHERE id = $5]
    (the trigger also refreshes [updated_at]). *)
Definition update_transaction (fault : bool) (at_ : Z) (b : BankResponse)
    (transactionId : string) (txs : list Transaction) : Result (list Transaction) :=
  if fault then Err ConnectionError
  else db_update (fun r => tx_id r = transactionId) (set_bank_response at_ b)
         transaction_row_error txs.

Definition increment_uses (at_ : Z) (pl : PaymentLink) : PaymentLink :=
  {| pl_id := pl_id pl;
     pl_user_id := pl_user_id pl;
     pl_link_id := pl_link_id pl;
     pl_amount := pl_amount pl;
     pl_currency := pl_currency pl;
     pl_description := pl_description pl;
     pl_expires_at := pl_expires_at pl;
     pl_is_active := pl_is_active pl;
     pl_max_uses := pl_max_uses pl;
     pl_current_uses := pl_current_uses pl + 1;
     pl_created_at := pl_created_at pl;
     pl_updated_at := at_ |}.

(** [UPDATE payment_links SET current_uses = current_uses + 1 WHERE id = $1]:
    no condition on the counter in the statement; the table's
    [check_uses_limit] rejects the new row when the link is full. *)
Definition update_link_uses (fault : bool) (at_ : Z) (id : string)
    (links : list PaymentLink) : Result (list PaymentLink) :=
  if fault then Err ConnectionError
  else db_update (fun r => pl_id r = id) (increment_uses at_)
         payment_link_row_error links.

Definition set_metadata (at_ : Z) (description : option string) (isActive : option bool)
    (pl : PaymentLink) : PaymentLink :=
  {| pl_id := pl_id pl;
     pl_user_id := pl_user_id pl;
     pl_link_id := pl_link_id pl;
     pl_amount := pl_amount pl;
     pl_currency := pl_currency pl;
     pl_description := match description with
                       | Some d => Some d
                       | None => pl_description pl
                       end;
     pl_expires_at := pl_expires_at pl;
     pl_is_active := default (pl_is_active pl) isActive;
     pl_max_uses := pl_max_uses pl;
     pl_current_uses := pl_current_uses pl;
     pl_created_at := pl_created_at pl;
     pl_updated_at := at_ |}.

(** [UPDATE payment_links SET description = .., is_active = ..,
    updated_at = CURRENT_TIMESTAMP WHERE link_id = $n AND user_id = $m] *)
Definition update_link_metadata (fault : bool) (at_ : Z) (linkId user : string)
    (description : option string) (isActive : option bool)
    (links : list PaymentLink) : Result (list PaymentLink) :=
  if fault then Err ConnectionError
  else db_update (fun r => pl_link_id r = linkId /\ pl_user_id r = user)
         (set_metadata at_ description isActive) payment_link_row_error links.

(* ================================================================= *)
(** ** Request validation (express-validator chains)

    A request body is a JSON object; each field is kept as what the chains and
    the handler read from it: [None] for a field that is missing, a string for
    a text field, an integer for a field holding an integer literal ([None]
    also when it holds anything else). *)

Record FieldError := { path : string; msg : string }.

Definition check_field (ok : bool) (p m : string) : list FieldError :=
  if ok then [] else [ {| path := p; msg := m |} ].

Record ProcessBody := {
  payerEmail : option string;
  payerName : option string;
  cardNumber : option string;
  expiryMonth : option Z;
  expiryYear : option Z;
  cvv : option string
}.

(** The validation chains of [POST /:linkId/process], in order.  A chain
    reports one error per failing validator, so [cardNumber] and [cvv] can
    contribute two. *)
Definition validate_process (rt : Runtime) (b : ProcessBody) : list FieldError :=
  (check_field (isEmail rt (default "" (payerEmail b)))
     "payerEmail" "Please provide a valid email address"
   ++ check_field (Js.isLength 1 255 (Js.trim (default "" (payerName b))))
     "payerName" "Payer name is required and must be less than 255 characters"
   ++ check_field (Js.isLength 13 19 (default "" (cardNumber b)))
     "cardNumber" "Card number must be between 13 and 19 digits"
   ++ check_field (Js.matches_digits (default "" (cardNumber b)))
     "cardNumber" "Card number must contain only digits"
   ++ check_field (from_option (fun m => (1 <=? m) && (m <=? 12)) false (expiryMonth b))
     "expiryMonth" "Expiry month must be between 1 and 12"
   ++ check_field (from_option (fun y => startupYear rt <=? y) false (expiryYear b))
     "expiryYear" "Expiry year must be current year or later"
   ++ check_field (Js.isLength 3 4 (default "" (cvv b)))
     "cvv" "CVV must be 3 or 4 digits"
   ++ check_field (Js.matches_digits (default "" (cvv b)))
     "cvv" "CVV must contain only digits")%list.

(* ================================================================= *)
(** ** Helpers of the redemption handler *)

(** [getCardBrand]: the first pattern, in the order visa, mastercard, amex,
    discover, that matches the start of the number. *)
Definition getCardBrand (cardNumber : string) : string :=
  if Js.starts_with "4" cardNumber then "Visa"
  else if existsb (fun p => Js.starts_with p cardNumber) ["51"; "52"; "53"; "54"; "55"]
  then "Mastercard"
  else if existsb (fun p => Js.starts_with p cardNumber) ["34"; "37"]
  then "Amex"
  else if existsb (fun p => Js.starts_with p cardNumber) ["6011"; "65"]
  then "Discover"
  else "Unknown".

Record PaymentData := {
  pd_amount : QArith_base.Q;
  pd_currency : string;
  pd_cardNumber : string;
  pd_expiryMonth : Z;
  pd_expiryYear : Z;
  pd_cvv : string
}.

Definition declined : BankResponse :=
  {| status := failed;
     responseCode := "DECLINED";
     responseMessage := "Card declined by issuer";
     failureReason := Some "Insufficient funds" |}.

Definition invalid_cvv : BankResponse :=
  {| status := failed;
     responseCode := "INVALID_CVV";
     responseMessage := "Invalid security code";
     failureReason := Some "Incorrect CVV" |}.

Definition approved : BankResponse :=
  {| status := completed;
     responseCode := "APPROVED";
     responseMessage := "Transaction approved";
     failureReason := None |}.

(** [simulateBankAPI]: wait [1000 + Math.random() * 2000] milliseconds, then
    decide from the last digit of the card number and of the CVV.  [jitter] is
    the random part of the delay in milliseconds.  The result pairs the time
    the call took with the decision; nothing bounds the wait. *)
Definition simulateBankAPI (jitter : Z) (paymentData : PaymentData) : Z * BankResponse :=
  let delay := 1000 + jitter in
  let lastDigit := Js.parseInt (Js.slice_last 1 (pd_cardNumber paymentData)) in
  let cvvLastDigit := Js.parseInt (Js.slice_last 1 (pd_cvv paymentData)) in
  if bool_decide (lastDigit = Some 0) then (delay, declined)
  else if bool_decide (cvvLastDigit = Some 0) then (delay, invalid_cvv)
  else (delay, approved).

(** What the handler answers. *)
Record Receipt := {
  r_id : string;
  r_status : TxStatus;
  r_amount : QArith_base.Q;
  r_currency : string;
  r_createdAt : Z;
  r_processedAt : Z;
  r_bankResponse : BankResponse
}.

Inductive ProcessResponse :=
| ValidationFailed (details : list FieldError)   (* 400 'Validation failed' *)
| NotFound                                       (* 404 *)
| LinkInactive                                   (* 400 *)
| LinkExpired                                    (* 400 *)
| LinkExhausted                                  (* 400 *)
| CardExpired                                    (* 400 *)
| Processed (receipt : Receipt)                  (* 200, success: true *)
| Thrown (e : DbError).                          (* next(error) *)

Definition error_text (r : ProcessResponse) : option string :=
  match r with
  | ValidationFailed _ => Some "Validation failed"
  | NotFound => Some "Payment link not found"
  | LinkInactive => Some "This payment link is inactive"
  | LinkExpired => Some "This payment link has expired"
  | LinkExhausted => Some "This payment link has reached its maximum usage limit"
  | CardExpired => Some "Card has expired"
  | Processed _ => None
  | Thrown _ => None
  end.

(** Status code of the answer; a thrown error goes through [errorHandler]. *)
Definition http_status (r : ProcessResponse) : Z :=
  match r with
  | ValidationFailed _ | LinkInactive | LinkExpired | LinkExhausted | CardExpired => 400
  | NotFound => 404
  | Processed _ => 200
  | Thrown UniqueViolation => 409
  | Thrown ForeignKeyViolation => 400
  | Thrown _ => 500
  end.

(** The three guards on the link row read by the handler, in source order.
    [expires_at && moment(expires_at).isBefore(moment())] and
    [max_uses && current_uses >= max_uses]: a [max_uses] of [0] is falsy. *)
Definition link_precheck (now_ : Z) (paymentLink : PaymentLink) : option ProcessResponse :=
  if negb (pl_is_active paymentLink) then Some LinkInactive
  else if from_option (fun e => e <? now_) false (pl_expires_at paymentLink)
  then Some LinkExpired
  else if from_option (fun m => negb (m =? 0) && (m <=? pl_current_uses paymentLink))
            false (pl_max_uses paymentLink)
  then Some LinkExhausted
  else None.

(** [moment(`${expiryYear}-${MM}-01`).isBefore(moment(), 'month')] *)
Definition card_expired (rt : Runtime) (now_ : Z) (expiryYear expiryMonth : Z) : bool :=
  12 * expiryYear + (expiryMonth - 1) <? monthIndex rt now_.

(** The row inserted for an attempt. *)
Definition new_transaction (rt : Runtime) (now_ : Z) (transactionId : string)
    (paymentLink : PaymentLink) (b : ProcessBody) : Transaction :=
  let cardNumber := default "" (cardNumber b) in
  {| tx_id := transactionId;
     tx_payment_link_id := pl_id paymentLink;
     tx_payer_email := normalizeEmail rt (default "" (payerEmail b));
     tx_payer_name := Js.trim (default "" (payerName b));
     tx_amount := pl_amount paymentLink;
     tx_currency := pl_currency paymentLink;
     tx_status := processing;
     tx_payment_method := "card";
     tx_card_last4 := Js.slice_last 4 cardNumber;
     tx_card_brand := getCardBrand cardNumber;
     tx_bank_response_code := None;
     tx_bank_response_message := None;
     tx_failure_reason := None;
     tx_processed_at := None;
     tx_created_at := now_;
     tx_updated_at := now_ |}.

Definition payment_data (paymentLink : PaymentLink) (b : ProcessBody) : PaymentData :=
  {| pd_amount := pl_amount paymentLink;
     pd_currency := pl_currency paymentLink;
     pd_cardNumber := default "" (cardNumber b);
     pd_expiryMonth := default 0 (expiryMonth b);
     pd_expiryYear := default 0 (expiryYear b);
     pd_cvv := default "" (cvv b) |}.

Definition receipt_of (now_ : Z) (paymentLink : PaymentLink) (transactionId : string)
    (createdAt : Z) (bankResponse : BankResponse) : Receipt :=
  {| r_id := transactionId;
     r_status := status bankResponse;
     r_amount := pl_amount paymentLink;
     r_currency := pl_currency paymentLink;
     r_createdAt := createdAt;
     r_processedAt := now_;
     r_bankResponse := bankResponse |}.

(* ================================================================= *)
(** ** The redemption handler as a task

    What the environment decides during one run of the handler: whether each
    of its four statements reaches the database, the identifier [uuidv4()]
    returns, and the random part of the bank's delay. *)

Record ProcessEnv := {
  select_fault : bool;
  uuid : string;
  insert_fault : bool;
  jitter : Z;
  update_fault : bool;
  uses_fault : bool
}.

(** Where a run of the handler is parked: one constructor per [await], with
    the local variables that are live there. *)
Inductive Pc :=
| AtStart
| AfterSelect (rows : list PaymentLink)
| AfterInsert (paymentLink : PaymentLink) (transactionId : string) (createdAt : Z)
| AfterBank (paymentLink : PaymentLink) (transactionId : string) (createdAt : Z)
    (bankResponse : BankResponse)
| AfterUpdate (paymentLink : PaymentLink) (transactionId : string) (createdAt : Z)
    (bankResponse : BankResponse)
| Responded (r : ProcessResponse).

Record Task := {
  linkId : string;
  body : ProcessBody;
  env : ProcessEnv;
  pc : Pc
}.

Definition at_pc (t : Task) (p : Pc) : Task :=
  {| linkId := linkId t; body := body t; env := env t; pc := p |}.

(** One segment of the handler: from the [await] the task is parked on to the
    next one (or to the response).  Takes and returns the two tables. *)
Definition segment (rt : Runtime) (now_ : Z)
    (links : list PaymentLink) (txs : list Transaction) (t : Task)
  : list PaymentLink * list Transaction * Pc :=
  match pc t with
  | AtStart =>
      match validate_process rt (body t) with
      | (_ :: _) as errors => (links, txs, Responded (ValidationFailed errors))
      | [] =>
          match select_link_by_link_id (select_fault (env t)) (linkId t) links with
          | Err e => (links, txs, Responded (Thrown e))
          | Ok rows => (links, txs, AfterSelect rows)
          end
      end
  | AfterSelect rows =>
      match rows with
      | [] => (links, txs, Responded NotFound)
      | paymentLink :: _ =>
          match link_precheck now_ paymentLink with
          | Some r => (links, txs, Responded r)
          | None =>
              if card_expired rt now_ (default 0 (expiryYear (body t)))
                   (default 0 (expiryMonth (body t)))
              then (links, txs, Responded CardExpired)
              else
                let transactionId := uuid (env t) in
                match insert_transaction (insert_fault (env t))
                        (new_transaction rt now_ transactionId paymentLink (body t))
                        links txs with
                | Err e => (links, txs, Responded (Thrown e))
                | Ok txs' => (links, txs', AfterInsert paymentLink transactionId now_)
                end
          end
      end
  | AfterInsert paymentLink transactionId createdAt =>
      let bankResponse :=
        snd (simulateBankAPI (jitter (env t)) (payment_data paymentLink (body t))) in
      (links, txs, AfterBank paymentLink transactionId createdAt bankResponse)
  | AfterBank paymentLink transactionId createdAt bankResponse =>
      match update_transaction (update_fault (env t)) now_ bankResponse transactionId txs with
      | Err e => (links, txs, Responded (Thrown e))
      | Ok txs' =>
          match status bankResponse with
          | completed =>
              (links, txs', AfterUpdate paymentLink transactionId createdAt bankResponse)
          | _ =>
              (links, txs',
               Responded (Processed
                 (receipt_of now_ paymentLink transactionId createdAt bankResponse)))
          end
      end
  | AfterUpdate paymentLink transactionId createdAt bankResponse =>
      match update_link_uses (uses_fault (env t)) now_ (pl_id paymentLink) links with
      | Err e => (links, txs, Responded (Thrown e))
      | Ok links' =>
          (links', txs,
           Responded (Processed
             (receipt_of now_ paymentLink transactionId createdAt bankResponse)))
      end
  | Responded r => (links, txs, Responded r)
  end.

(* ================================================================= *)
(** ** Link management: creation and metadata update *)

(** An optional request field: missing, present but refused by its
    validator, or present with the value the validator accepts. *)
Inductive JsField (A : Type) :=
| Absent
| Invalid
| Present (a : A).
Arguments Absent {A}.
Arguments Invalid {A}.
Arguments Present {A} a.

Record CreateBody := {
  amount : option QArith_base.Q;
  currency : option string;
  description : option string;
  expiresAt : option string;
  maxUses : JsField Z
}.

Record CreateEnv := {
  link_uuid : string;     (* the [uuidv4()] the token is cut from *)
  row_uuid : string;      (* [gen_random_uuid()], the row's primary key *)
  create_fault : bool
}.

(** The validation chains of [POST /links]: one validator per field, the four
    fields after [amount] are [optional()]. *)
Definition validate_create (rt : Runtime) (b : CreateBody) : list FieldError :=
  (check_field (from_option (QArith_base.Qle_bool Qcent) false (amount b))
     "amount" "Amount must be a positive number"
   ++ check_field (from_option (Js.isLength 3 3) true (currency b))
     "currency" "Currency must be a 3-letter code"
   ++ check_field (from_option (Js.isLength 0 500) true (description b))
     "description" "Description must be less than 500 characters"
   ++ check_field (from_option (fun s => bool_decide (is_Some (parseISO8601 rt s))) true (expiresAt b))
     "expiresAt" "Expiry date must be a valid ISO 8601 date"
   ++ check_field (match maxUses b with
                   | Absent => true
                   | Invalid => false
                   | Present n => 1 <=? n
                   end)
     "maxUses" "Max uses must be a positive integer")%list.

Fixpoint remove_char (c : ascii) (s : string) : string :=
  match s with
  | EmptyString => EmptyString
  | String a r => if Ascii.eqb a c then remove_char c r else String a (remove_char c r)
  end.

(** [uuidv4().replace(/-/g, '').substring(0, 16)] *)
Definition link_id_of_uuid (u : string) : string :=
  substring 0 16 (remove_char "-" u).

(** [parseInt(process.env.PAYMENT_LINK_EXPIRY_HOURS) || 24] *)
Definition defaultExpiryHours (rt : Runtime) : Z :=
  Js.or_default
    (match PAYMENT_LINK_EXPIRY_HOURS rt with
     | Some s => Js.parseInt s
     | None => None
     end) 24.

(** The expiry stored with a new link: the date given, when [expiresAt] is
    truthy, and otherwise [moment().add(defaultExpiryHours, 'hours')]. *)
Definition expiryDate (rt : Runtime) (now_ : Z) (expiresAt : option string) : option Z :=
  match expiresAt with
  | Some (String _ _ as s) => parseISO8601 rt s
  | _ => Some (now_ + defaultExpiryHours rt * ms_per_hour)
  end.

Definition new_payment_link (rt : Runtime) (now_ : Z) (user : string)
    (b : CreateBody) (e : CreateEnv) : PaymentLink :=
  {| pl_id := row_uuid e;
     pl_user_id := user;
     pl_link_id := link_id_of_uuid (link_uuid e);
     pl_amount := default Qzero (amount b);
     pl_currency := default "USD" (currency b);
     pl_description := description b;
     pl_expires_at := expiryDate rt now_ (expiresAt b);
     pl_is_active := true;
     pl_max_uses := match maxUses b with
                    | Present n => Some n
                    | _ => None
                    end;
     pl_current_uses := 0;
     pl_created_at := now_;
     pl_updated_at := now_ |}.

Inductive CreateResponse :=
| CreateValidationFailed (details : list FieldError)   (* 400 *)
| Created (paymentLink : PaymentLink)                  (* 201 *)
| CreateThrown (e : DbError).

(** [POST /api/payments/links] for the authenticated [user]: one statement. *)
Definition create_link (rt : Runtime) (now_ : Z) (user : string) (b : CreateBody)
    (e : CreateEnv) (links : list PaymentLink) : list PaymentLink * CreateResponse :=
  match validate_create rt b with
  | (_ :: _) as errors => (links, CreateValidationFailed errors)
  | [] =>
      let paymentLink := new_payment_link rt now_ user b e in
      match insert_payment_link (create_fault e) paymentLink links with
      | Err err => (links, CreateThrown err)
      | Ok links' => (links', Created paymentLink)
      end
  end.

Record UpdateBody := {
  new_description : option string;
  new_isActive : JsField bool
}.

Inductive UpdateResponse :=
| UpdateValidationFailed (details : list FieldError)   (* 400 *)
| UpdateNotFound                                       (* 404 *)
| NoFieldsToUpdate                                     (* 400 *)
| Updated
| UpdateThrown (e : DbError).

Definition validate_update (b : UpdateBody) : list FieldError :=
  (check_field (from_option (Js.isLength 0 500) true (new_description b))
     "description" "Description must be less than 500 characters"
   ++ check_field (match new_isActive b with
                   | Invalid => false
                   | _ => true
                   end)
     "isActive" "isActive must be a boolean")%list.

(** [PUT /api/payments/links/:linkId].  The handler first selects the row by
    token and owner and then updates it; rows are never deleted and neither
    column changes, so the pair acts as one statement at the time of the
    update. *)
Definition update_link (now_ : Z) (user linkId_ : string) (b : UpdateBody)
    (fault : bool) (links : list PaymentLink) : list PaymentLink * UpdateResponse :=
  match validate_update b with
  | (_ :: _) as errors => (links, UpdateValidationFailed errors)
  | [] =>
      if fault then (links, UpdateThrown ConnectionError)
      else
        match filter (fun r => pl_link_id r = linkId_ /\ pl_user_id r = user) links with
        | [] => (links, UpdateNotFound)
        | _ :: _ =>
            let isActive := match new_isActive b with
                            | Present v => Some v
                            | _ => None
                            end in
            match new_description b, isActive with
            | None, None => (links, NoFieldsToUpdate)
            | d, a =>
                match update_link_metadata false now_ linkId_ user d a links with
                | Err e => (links, UpdateThrown e)
                | Ok links' => (links', Updated)
                end
            end
        end
  end.

(* ================================================================= *)
(** ** The server: shared tables, the clock, and the handler runs in flight *)

Record World := {
  now : Z;
  payment_links : list PaymentLink;
  transactions : list Transaction;
  tasks : list Task
}.

Definition init (t0 : Z) : World :=
  {| now := t0; payment_links := []; transactions := []; tasks := [] |}.

Inductive Event :=
| Tick (dt : Z)
| CreateLink (user : string) (b : CreateBody) (e : CreateEnv)
| UpdateLink (user linkId_ : string) (b : UpdateBody) (fault : bool)
| Submit (linkId_ : string) (b : ProcessBody) (e : ProcessEnv)
| Advance (i : nat).

(** One atomic move of the server.  [Tick] lets time pass, [CreateLink] and
    [UpdateLink] run a link-management request, [Submit] receives a redemption
    request, and [Advance i] runs the next segment of the [i]-th redemption.
    The read-only routes change nothing and are left out. *)
Definition step (rt : Runtime) (w : World) (ev : Event) : World :=
  match ev with
  | Tick dt =>
      {| now := now w + Z.max 0 dt; payment_links := payment_links w;
         transactions := transactions w; tasks := tasks w |}
  | CreateLink user b e =>
      {| now := now w;
         payment_links := fst (create_link rt (now w) user b e (payment_links w));
         transactions := transactions w; tasks := tasks w |}
  | UpdateLink user l b fault =>
      {| now := now w;
         payment_links := fst (update_link (now w) user l b fault (payment_links w));
         transactions := transactions w; tasks := tasks w |}
  | Submit l b e =>
      {| now := now w; payment_links := payment_links w;
         transactions := transactions w;
         tasks := (tasks w ++ [ {| linkId := l; body := b; env := e; pc := AtStart |} ])%list |}
  | Advance i =>
      match tasks w !! i with
      | None => w
      | Some t =>
          let '(links, txs, p) := segment rt (now w) (payment_links w) (transactions w) t in
          {| now := now w; payment_links := links; transactions := txs;
             tasks := <[i := at_pc t p]> (tasks w) |}
      end
  end.

Definition run (rt : Runtime) (w : World) (evs : list Event) : World :=
  fold_left (step rt) evs w.

Definition reachable (rt : Runtime) (w : World) : Prop :=
  exists t0 evs, w = run rt (init t0) evs.

(** A redemption request handled without any other request in between:
    the request is received and its five segments run back to back, the
    clock standing still meanwhile.  (Interleavings and the passing of time
    are the business of [step] and [run].) *)
Definition process (rt : Runtime) (w : World) (linkId_ : string) (b : ProcessBody)
    (e : ProcessEnv) : World :=
  let i := length (tasks w) in
  run rt w [Submit linkId_ b e; Advance i; Advance i; Advance i; Advance i; Advance i].

(** The answer of the redemption that [process] has just run. *)
Definition response_of (before after : World) : option ProcessResponse :=
  match tasks after !! length (tasks before) with
  | Some {| pc := Responded r |} => Some r
  | _ => None
  end.

(** The transactions of a link that are [completed]. *)
Definition completed_of (id : string) (txs : list Transaction) : list Transaction :=
  filter (fun t => tx_payment_link_id t = id /\ tx_status t = completed) txs.

(** [n] consecutive segments of one task, on the tables alone. *)
Fixpoint segments (n : nat) (rt : Runtime) (now_ : Z)
    (links : list PaymentLink) (txs : list Transaction) (t : Task)
  : list PaymentLink * list Transaction * Task :=
  match n with
  | O => (links, txs, t)
  | S k =>
      let '(links', txs', p) := segment rt now_ links txs t in
      segments k rt now_ links' txs' (at_pc t p)
  end.

(** The transaction a run still has to finalize: the row it inserted, as long
    as its [UPDATE transactions] has not been issued. *)
Definition live_tx (p : Pc) : option string :=
  match p with
  | AfterInsert _ transactionId _ => Some transactionId
  | AfterBank _ transactionId _ _ => Some transactionId
  | _ => None
  end.



(** Data-model condition on a link: [maxUses], when set, is a positive
    integer (what [validate_create] admits). *)
Definition max_uses_positive (pl : PaymentLink) : Prop :=
  forall m, pl_max_uses pl = Some m -> 1 <= m.

(** Answers that can only be given after the three guards have let the
    request through. *)
Definition past_precheck (r : ProcessResponse) : Prop :=
  match r with
  | CardExpired | Processed _ | Thrown _ => True
  | _ => False
  end.

(** Answers given before anything is written. *)
Definition refusal (r : ProcessResponse) : Prop :=
  match r with
  | Processed _ => False
  | _ => True
  end.

(** The rows with identifier [id] exist and are all [processing]: the state
    of a row between its INSERT and its finalize write. *)
Definition awaiting_finalize (txs : list Transaction) (id : string) : Prop :=
  (exists t, t ∈ txs /\ tx_id t = id)
  /\ forall t, t ∈ txs -> tx_id t = id -> tx_status t = processing.

(** What holds of the ledger and the runs in flight in every world the server
    can reach: [id] is a key of [transactions]; a run that still has to
    finalize a row finds it in [processing]; and no two runs are about to
    finalize the same row. *)
Definition ledger_inv (w : World) : Prop :=
  NoDup (tx_id <$> transactions w)
  /\ (forall i t id, tasks w !! i = Some t -> live_tx (pc t) = Some id ->
      awaiting_finalize (transactions w) id)
  /\ (forall i j ti tj id,
        tasks w !! i = Some ti -> tasks w !! j = Some tj ->
        live_tx (pc ti) = Some id -> live_tx (pc tj) = Some id -> i = j).

(** [current_uses <= max_uses] whenever [max_uses] is set. *)
Definition within_limit (pl : PaymentLink) : Prop :=
  forall m, pl_max_uses pl = Some m -> pl_current_uses pl <= m.


(* ================================================================= *)
(** ** A concrete server, for evaluating the handlers *)

Module Demo.

(** A stand-in for the library calls: an address is accepted when it holds
    an [@], two ISO dates are known, and a month lasts 2629746000 ms (the
    mean Gregorian month). *)
Definition rt : Runtime :=
  {| isEmail := fun s => existsb (Ascii.eqb "@") (list_ascii_of_string s);
     normalizeEmail := fun s => s;
     parseISO8601 := fun s =>
       if String.eqb s "2020-01-01T00:00:00Z" then Some 1577836800000
       else if String.eqb s "2030-01-01T00:00:00Z" then Some 1893456000000
       else None;
     monthIndex := fun t => 12 * 1970 + t / 2629746000;
     startupYear := 2026;
     PAYMENT_LINK_EXPIRY_HOURS := None |}.

(** 2026-11-02T00:00:00Z *)
Definition t0 : Z := 1793577600000.

Definition ten : QArith_base.Q := QArith_base.Qmake 10 1.

(** A link for 10 USD that may be used once. *)
Definition once : CreateBody :=
  {| amount := Some ten; currency := None; description := None;
     expiresAt := None; maxUses := Present 1 |}.

Definition once_env : CreateEnv :=
  {| link_uuid := "3f2b8c1e-9d4a-4f6b-8a7c-5e1d2c3b4a59";
     row_uuid := "0b9d6c2a-7e1f-4c3d-9a8b-6f5e4d3c2b1a";
     create_fault := false |}.

Definition token : string := "3f2b8c1e9d4a4f6b".

Definition shop : World := run rt (init t0) [CreateLink "merchant" once once_env].

Definition card (number code : string) : ProcessBody :=
  {| payerEmail := Some "ann@example.com"; payerName := Some "Ann Payer";
     cardNumber := Some number; expiryMonth := Some 12; expiryYear := Some 2027;
     cvv := Some code |}.

(** A card the bank approves, one it declines, one whose CVV it refuses. *)
Definition good_card : ProcessBody := card "4242424242424242" "123".
Definition poor_card : ProcessBody := card "4242424242424240" "123".
Definition bad_cvv_card : ProcessBody := card "4242424242424242" "120".
(** A body that fails validation: the card number has four digits. *)
Definition malformed_card : ProcessBody := card "4242" "123".

Definition quiet (id : string) : ProcessEnv :=
  {| select_fault := false; uuid := id; insert_fault := false; jitter := 1500;
     update_fault := false; uses_fault := false |}.


(** Two approved redemptions of the single-use link, interleaved: both read
    the link before either has finalized. *)
Definition race : list Event :=
  [ Submit token good_card (quiet "tx-a"); Submit token good_card (quiet "tx-b");
    Advance 0%nat; Advance 1%nat;      (* both SELECT the link: current_uses = 0 *)
    Advance 0%nat; Advance 1%nat;      (* both pass the guards and INSERT *)
    Advance 0%nat; Advance 1%nat;      (* both are approved by the bank *)
    Advance 0%nat; Advance 1%nat;      (* both UPDATE their transaction *)
    Advance 0%nat ].                   (* the first UPDATEs current_uses to 1 *)

Definition raced : World := run rt shop race.

(** The first of the two rows, as finalized. *)
Definition tx_a : Transaction :=
  set_bank_response t0 approved
    (new_transaction rt t0 "tx-a" (new_payment_link rt t0 "merchant" once once_env)
       good_card).

(** What happens next: the second run fails on the counter, a minute
    passes, and a third request arrives that draws the identifier of the
    first row again. *)
Definition aftermath : list Event :=
  [ Advance 1%nat; Tick 60000;
    Submit token good_card (quiet "tx-a");
    Advance 2%nat; Advance 2%nat; Advance 2%nat ].

(** A link whose expiry lies in the past at creation time. *)
Definition stale : CreateBody :=
  {| amount := Some ten; currency := Some "USD"; description := None;
     expiresAt := Some "2020-01-01T00:00:00Z"; maxUses := Absent |}.

Definition stale_env : CreateEnv :=
  {| link_uuid := "a1b2c3d4-e5f6-4a7b-8c9d-0e1f2a3b4c5d";
     row_uuid := "5d4c3b2a-1f0e-4d9c-8b7a-6f5e4d3c2b1a";
     create_fault := false |}.

Definition stale_token : string := "a1b2c3d4e5f64a7b".

Definition stale_shop : World := run rt (init t0) [CreateLink "merchant" stale stale_env].


End Demo.

(* ================================================================= *)
(** ** Requests served one at a time

    The server as a caller sees it when no two requests overlap: each request
    runs to its answer before the next one starts. *)

Inductive Request :=
| Wait (dt : Z)
| Create (user : string) (b : CreateBody) (e : CreateEnv)
| Update (user linkId_ : string) (b : UpdateBody) (fault : bool)
| Redeem (linkId_ : string) (b : ProcessBody) (e : ProcessEnv).

Definition serve (rt : Runtime) (w : World) (q : Request) : World :=
  match q with
  | Wait dt => step rt w (Tick dt)
  | Create user b e => step rt w (CreateLink user b e)
  | Update user l b fault => step rt w (UpdateLink user l b fault)
  | Redeem l b e => process rt w l b e
  end.

Definition serve_all (rt : Runtime) (w : World) (qs : list Request) : World :=
  fold_left (serve rt) qs w.

(** The connection holds at the counter update of a redemption. *)
Definition counter_write_kept (q : Request) : Prop :=
  match q with
  | Redeem _ _ e => uses_fault e = false
  | _ => True
  end.

(** What holds of the tables between requests served one at a time with the
    counter write kept: stored links pass the row checks, have a positive
    [max_uses] when set and distinct keys; every transaction belongs to a
    stored link; and a capped link has been counted once per [completed]
    transaction. *)
Definition serial_inv (w : World) : Prop :=
  Forall (fun pl => payment_link_row_error pl = None) (payment_links w)
  /\ Forall max_uses_positive (payment_links w)
  /\ NoDup (pl_id <$> payment_links w)
  /\ (forall t, t ∈ transactions w ->
        exists pl, pl ∈ payment_links w /\ pl_id pl = tx_payment_link_id t)
  /\ (forall pl m, pl ∈ payment_links w -> pl_max_uses pl = Some m ->
        Z.of_nat (length (completed_of (pl_id pl) (transactions w))) = pl_current_uses pl).

(** The columns of a link that no statement rewrites, and its counter, which
    only grows. *)
Definition same_link (pl pl' : PaymentLink) : Prop :=
  pl_id pl' = pl_id pl
  /\ pl_user_id pl' = pl_user_id pl
  /\ pl_link_id pl' = pl_link_id pl
  /\ pl_amount pl' = pl_amount pl
  /\ pl_currency pl' = pl_currency pl
  /\ pl_expires_at pl' = pl_expires_at pl
  /\ pl_max_uses pl' = pl_max_uses pl
  /\ pl_created_at pl' = pl_created_at pl
  /\ pl_current_uses pl <= pl_current_uses pl'.

(** A transaction carries the amount and currency of a stored link. *)
Definition priced_by (links : list PaymentLink) (id : string)
    (a : QArith_base.Q) (c : string) : Prop :=
  exists pl, pl ∈ links /\ pl_id pl = id /\ pl_amount pl = a /\ pl_currency pl = c.

(** Every transaction, and every link row a run has read and not yet used, is
    priced by a stored link. *)
Definition price_inv (w : World) : Prop :=
  (forall t, t ∈ transactions w ->
     priced_by (payment_links w) (tx_payment_link_id t) (tx_amount t) (tx_currency t))
  /\ (forall i t rows r, tasks w !! i = Some t -> pc t = AfterSelect rows -> r ∈ rows ->
        priced_by (payment_links w) (pl_id r) (pl_amount r) (pl_currency r)).

(** Distinct primary keys and distinct tokens. *)
Definition keys_inv (w : World) : Prop :=
  NoDup (pl_id <$> payment_links w) /\ NoDup (pl_link_id <$> payment_links w).

(* ================================================================= *)
(** ** The public view of a link: [GET /pay/:linkId] *)

(** A row of [users], as far as the join reads it. *)
Record User := {
  u_id : string;
  u_first_name : string;
  u_last_name : string
}.

Record PublicLink := {
  v_linkId : string;
  v_amount : QArith_base.Q;
  v_currency : string;
  v_description : option string;
  v_expiresAt : option Z;
  v_maxUses : option Z;
  v_currentUses : Z;
  v_createdAt : Z;
  v_merchantName : string
}.

Inductive ViewResponse :=
| ViewNotFound        (* 404 'Payment link not found' *)
| ViewInactive        (* 400 'This payment link is inactive' *)
| ViewExpired         (* 400 'This payment link has expired' *)
| ViewExhausted       (* 400 '... reached its maximum usage limit' *)
| Viewed (v : PublicLink)
| ViewThrown (e : DbError).

(** [SELECT ... FROM payment_links pl JOIN users u ON pl.user_id = u.id
    WHERE pl.link_id = $1] *)
Definition select_link_with_owner (linkId_ : string) (users : list User)
    (links : list PaymentLink) : list (PaymentLink * User) :=
  pl ← filter (fun r => pl_link_id r = linkId_) links;
  u ← filter (fun u => u_id u = pl_user_id pl) users;
  [(pl, u)].

(** The handler: the same three guards as the redemption handler, written
    out a second time in the source, then the fields shown to the payer. *)
Definition get_public_link (fault : bool) (now_ : Z) (users : list User)
    (links : list PaymentLink) (linkId_ : string) : ViewResponse :=
  if fault then ViewThrown ConnectionError
  else
    match select_link_with_owner linkId_ users links with
    | [] => ViewNotFound
    | (paymentLink, u) :: _ =>
        if negb (pl_is_active paymentLink) then ViewInactive
        else if match pl_expires_at paymentLink with
                | Some e => e <? now_
                | None => false
                end
        then ViewExpired
        else if match pl_max_uses paymentLink with
                | Some m => negb (m =? 0) && (m <=? pl_current_uses paymentLink)
                | None => false
                end
        then ViewExhausted
        else Viewed
               {| v_linkId := pl_link_id paymentLink;
                  v_amount := pl_amount paymentLink;
                  v_currency := pl_currency paymentLink;
                  v_description := pl_description paymentLink;
                  v_expiresAt := pl_expires_at paymentLink;
                  v_maxUses := pl_max_uses paymentLink;
                  v_currentUses := pl_current_uses paymentLink;
                  v_createdAt := pl_created_at paymentLink;
                  v_merchantName := u_first_name u ++ " " ++ u_last_name u |}
    end.

(* ================================================================= *)
(** ** Listing: [GET /api/payments/links] and [GET /api/transactions] *)

(** The [status] filter added to the WHERE clause of the link listing;
    [NOW()] is the server clock.  Any other value of [status] adds nothing. *)
Definition status_clause (status : option string) (now_ : Z) (pl : PaymentLink) : bool :=
  match status with
  | Some s =>
      if String.eqb s "active"
      then pl_is_active pl && from_option (fun e => now_ <? e) true (pl_expires_at pl)
      else if String.eqb s "expired"
      then from_option (fun e => e <=? now_) false (pl_expires_at pl)
      else if String.eqb s "inactive"
      then negb (pl_is_active pl)
      else true
  | None => true
  end.





(** The aggregates of [GET /links]: [COUNT(t.id)] and
    [COALESCE(SUM(CASE WHEN t.status = 'completed' THEN t.amount ELSE 0 END), 0)]
    over the transactions joined to the link. *)
Definition transaction_count (pl : PaymentLink) (txs : list Transaction) : nat :=
  length (filter (fun t => tx_payment_link_id t = pl_id pl) txs).

Definition total_collected (pl : PaymentLink) (txs : list Transaction) : QArith_base.Q :=
  foldr (fun t acc =>
           QArith_base.Qplus
             (if decide (tx_status t = completed) then tx_amount t else Qzero) acc)
    Qzero (filter (fun t => tx_payment_link_id t = pl_id pl) txs).

(* ================================================================= *)
(** ** The shape of a ledger row *)

(** One of the three answers [simulateBankAPI] can give. *)
Definition bank_decision (d : BankResponse) : Prop :=
  d = declined \/ d = invalid_cvv \/ d = approved.

(** A row as inserted, or a row carrying in full a decision of the bank
    that the columns can hold. *)
Definition well_shaped (t : Transaction) : Prop :=
  (tx_status t = processing
   /\ tx_bank_response_code t = None /\ tx_bank_response_message t = None
   /\ tx_failure_reason t = None /\ tx_processed_at t = None)
  \/ exists d, (d = declined \/ d = approved)
       /\ tx_status t = status d
       /\ tx_bank_response_code t = Some (responseCode d)
       /\ tx_bank_response_message t = Some (responseMessage d)
       /\ tx_failure_reason t = failureReason d
       /\ tx_processed_at t <> None.

Definition shape_inv (w : World) : Prop :=
  (forall t, t ∈ transactions w -> well_shaped t)
  /\ (forall i t pl id created d, tasks w !! i = Some t ->
        pc t = AfterBank pl id created d -> bank_decision d).

(** The columns of a transaction that no statement rewrites. *)
Definition same_attempt (t t' : Transaction) : Prop :=
  tx_id t' = tx_id t
  /\ tx_payment_link_id t' = tx_payment_link_id t
  /\ tx_payer_email t' = tx_payer_email t
  /\ tx_payer_name t' = tx_payer_name t
  /\ tx_amount t' = tx_amount t
  /\ tx_currency t' = tx_currency t
  /\ tx_payment_method t' = tx_payment_method t
  /\ tx_card_last4 t' = tx_card_last4 t
  /\ tx_card_brand t' = tx_card_brand t
  /\ tx_created_at t' = tx_created_at t.

(* ================================================================= *)
(** ** The router of [/api/transactions]

    Express tries the routes of a router in the order of their registration
    and hands the request to the first whose path pattern matches; a pattern
    matches without regard to case and allows one trailing slash; a
    parameter [:name] matches one non-empty segment without a slash. *)

Definition lower (c : ascii) : ascii :=
  let n := nat_of_ascii c in
  if (65 <=? n)%nat && (n <=? 90)%nat then ascii_of_nat (n + 32) else c.

Fixpoint eqb_nocase (a b : string) : bool :=
  match a, b with
  | EmptyString, EmptyString => true
  | String x a', String y b' => Ascii.eqb (lower x) (lower y) && eqb_nocase a' b'
  | _, _ => false
  end.

(** The path without its leading slash and without one trailing slash;
    [None] when the path does not start with a slash. *)
Definition path_segment (path : string) : option string :=
  match path with
  | String "/" r =>
      match Js.rev r with
      | String "/" r' => Some (Js.rev r')
      | _ => Some r
      end
  | _ => None
  end.

(** [router.get('/', ...)]: pattern [/^\/?$/i]. *)
Definition matches_root (path : string) : bool :=
  String.eqb path "" || String.eqb path "/".

(** [router.get('/:transactionId', ...)]: pattern [/^\/(?:([^\/]+?))\/?$/i]. *)
Definition matches_param (path : string) : option string :=
  match path_segment path with
  | Some (String _ _ as seg) =>
      if Js.all_chars (fun c => negb (Ascii.eqb c "/")) seg then Some seg else None
  | _ => None
  end.

(** [router.get('/summary', ...)]: pattern [/^\/summary\/?$/i]. *)
Definition matches_literal (name path : string) : bool :=
  match path_segment path with
  | Some seg => eqb_nocase seg name
  | None => false
  end.

Inductive TransactionsRoute :=
| ListTransactions
| GetTransaction (transactionId : string)
| GetSummary
| Unrouted.

(** The three GET routes of the router, in source order. *)
Definition dispatch_transactions (path : string) : TransactionsRoute :=
  if matches_root path then ListTransactions
  else match matches_param path with
       | Some transactionId => GetTransaction transactionId
       | None => if matches_literal "summary" path then GetSummary else Unrouted
       end.

(* ================================================================= *)
(** ** Relative times on the dashboard: [formatRelativeTime] *)

(** The branch [formatRelativeTime] takes and the number it prints.
    [now_] and [target] are the two [getTime()] values. *)
Inductive RelativeTime :=
| JustNow
| MinutesAgo (n : Z)
| HoursAgo (n : Z)
| DaysAgo (n : Z)
| OnDate.

Definition relativeTime (now_ target : Z) : RelativeTime :=
  let diffInSeconds := (now_ - target) / 1000 in
  if diffInSeconds <? 60 then JustNow
  else
    let diffInMinutes := diffInSeconds / 60 in
    if diffInMinutes <? 60 then MinutesAgo diffInMinutes
    else
      let diffInHours := diffInMinutes / 60 in
      if diffInHours <? 24 then HoursAgo diffInHours
      else
        let diffInDays := diffInHours / 24 in
        if diffInDays <? 7 then DaysAgo diffInDays else OnDate.

(** [`${n} unit${n > 1 ? 's' : ''} ago`], given the decimal form of [n]. *)
Definition ago (decimal : Z -> string) (n : Z) (unit : string) : string :=
  decimal n ++ " " ++ unit ++ (if 1 <? n then "s" else "") ++ " ago".

(** [formatRelativeTime]; [decimal] is the number-to-string conversion of a
    template literal and [formatDate] the helper of the same file, which
    goes through [Intl.DateTimeFormat]. *)
Definition formatRelativeTime (decimal : Z -> string) (formatDate : Z -> string)
    (now_ target : Z) : string :=
  match relativeTime now_ target with
  | JustNow => "Just now"
  | MinutesAgo n => ago decimal n "minute"
  | HoursAgo n => ago decimal n "hour"
  | DaysAgo n => ago decimal n "day"
  | OnDate => formatDate target
  end.

(* ================================================================= *)
(** ** The counter against the ledger *)

(** 1 when the run has written [completed] to its transaction and has yet to
    issue the UPDATE of the counter of the link with key [id]; 0 otherwise. *)
Definition pending_use (id : string) (t : Task) : nat :=
  match pc t with
  | AfterUpdate paymentLink _ _ _ => if decide (pl_id paymentLink = id) then 1%nat else 0%nat
  | _ => 0%nat
  end.

Definition pending_uses (id : string) (ts : list Task) : nat :=
  sum_list_with (pending_use id) ts.

(** The link row a run has read and the transaction it has inserted and not
    yet finalized. *)
Definition held (p : Pc) : option (PaymentLink * string) :=
  match p with
  | AfterInsert paymentLink transactionId _ => Some (paymentLink, transactionId)
  | AfterBank paymentLink transactionId _ _ => Some (paymentLink, transactionId)
  | _ => None
  end.

Definition recorded_for (txs : list Transaction) (id k : string) : Prop :=
  exists r, r ∈ txs /\ tx_id r = id /\ tx_payment_link_id r = k.

(** Every use counted on a link, and every use about to be counted, has its
    own [completed] transaction. *)
Definition counter_inv (w : World) : Prop :=
  (forall k, (pending_uses k (tasks w) <= length (completed_of k (transactions w)))%nat)
  /\ (forall pl, pl ∈ payment_links w ->
        pl_current_uses pl + Z.of_nat (pending_uses (pl_id pl) (tasks w))
        <= Z.of_nat (length (completed_of (pl_id pl) (transactions w))))
  /\ (forall i t pl id, tasks w !! i = Some t -> held (pc t) = Some (pl, id) ->
        recorded_for (transactions w) id (pl_id pl)).

(* ================================================================= *)
(** * Properties *)

(** Case analysis on every [match] (and [if]) a hypothesis is stuck on. *)
Ltac split_matches H :=
  repeat match type of H with
         | context [match ?c with _ => _ end] => destruct c eqn:?
         end.

(** ** Statements of the database layer *)

Lemma db_update_Ok {A : Type} (P : A -> Prop) `{!forall x, Decision (P x)}
    (f : A -> A) chk (rows rows' : list A) :
  db_update P f chk rows = Ok rows' ->
  rows' = (fun r => if decide (P r) then f r else r) <$> rows.
Proof.
  unfold db_update. destruct (head _); [discriminate|].
  intros Heq; injection Heq as <-. reflexivity.
Qed.

Lemma db_update_Err_checked {A : Type} (P : A -> Prop) `{!forall x, Decision (P x)}
    (f : A -> A) chk (rows : list A) err :
  db_update P f chk rows = Err err ->
  exists r, r ∈ rows /\ P r /\ chk (f r) = Some err.
Proof.
  unfold db_update.
  destruct (head _) as [e0|] eqn:Hh; [|discriminate].
  intros Heq; injection Heq as <-.
  assert (He : e0 ∈ omap (fun r => if decide (P r) then chk (f r) else None) rows).
  { destruct (omap _ rows); [discriminate|]. cbn in Hh. injection Hh as ->. left. }
  apply list_elem_of_omap in He as (r & Hr & Hc).
  exists r. destruct (decide (P r)); [auto | discriminate].
Qed.

Lemma fmap_untouched {A : Type} (P : A -> Prop) `{!forall x, Decision (P x)}
    (f : A -> A) (rows : list A) :
  Forall (fun x => ~ P x) rows ->
  (fun r => if decide (P r) then f r else r) <$> rows = rows.
Proof.
  induction 1 as [|x rows Hx _ IH]; [reflexivity|].
  cbn. rewrite IH. destruct (decide (P x)); [contradiction | reflexivity].
Qed.

Lemma omap_untouched {A : Type} (P : A -> Prop) `{!forall x, Decision (P x)}
    (g : A -> option DbError) (rows : list A) :
  Forall (fun x => ~ P x) rows ->
  omap (fun r => if decide (P r) then g r else None) rows = [].
Proof.
  induction 1 as [|x rows Hx _ IH]; [reflexivity|].
  cbn. rewrite IH. destruct (decide (P x)); [contradiction | reflexivity].
Qed.

(** An update whose condition selects only the last row. *)
Lemma db_update_snoc {A : Type} (P : A -> Prop) `{!forall x, Decision (P x)}
    (f : A -> A) chk (rows : list A) (r : A) :
  Forall (fun x => ~ P x) rows -> P r ->
  db_update P f chk (rows ++ [r])
  = match chk (f r) with
    | Some e => Err e
    | None => Ok (rows ++ [f r])%list
    end.
Proof.
  intros Hrows Hr. unfold db_update.
  rewrite omap_app, (omap_untouched P _ rows Hrows). cbn.
  destruct (decide (P r)); [|contradiction].
  destruct (chk (f r)); cbn; [reflexivity|].
  rewrite fmap_app, (fmap_untouched P f rows Hrows). cbn.
  destruct (decide (P r)); [reflexivity | contradiction].
Qed.

Lemma insert_transaction_Ok fault t links txs txs' :
  insert_transaction fault t links txs = Ok txs' ->
  txs' = (txs ++ [t])%list
  /\ Forall (fun r => tx_id r <> tx_id t) txs
  /\ transaction_row_error t = None.
Proof.
  unfold insert_transaction. destruct fault; [discriminate|].
  destruct (transaction_row_error t); [discriminate|].
  case_bool_decide as Hdup; [discriminate|].
  case_bool_decide; [|discriminate].
  intros Heq; injection Heq as <-. split; [reflexivity|]. split; [|reflexivity].
  apply not_Exists_Forall in Hdup; [exact Hdup | intros x; apply _].
Qed.

Lemma filter_head_elem {A : Type} (P : A -> Prop) `{!forall x, Decision (P x)}
    (l : list A) x rest :
  filter P l = x :: rest -> x ∈ l /\ P x.
Proof.
  intros Heq. assert (Hx : x ∈ filter P l) by (rewrite Heq; left).
  apply list_elem_of_filter in Hx. tauto.
Qed.

(** The decision of the bank is one of three, and each is terminal. *)
Lemma simulateBankAPI_cases j pd :
  snd (simulateBankAPI j pd) = declined
  \/ snd (simulateBankAPI j pd) = invalid_cvv
  \/ snd (simulateBankAPI j pd) = approved.
Proof.
  unfold simulateBankAPI. repeat case_bool_decide; cbn; auto.
Qed.


Lemma db_update_Ok_checked {A : Type} (P : A -> Prop) `{!forall x, Decision (P x)}
    (f : A -> A) chk (rows rows' : list A) r :
  db_update P f chk rows = Ok rows' -> r ∈ rows -> P r -> chk (f r) = None.
Proof.
  unfold db_update.
  destruct (head _) as [e0|] eqn:Hh; [discriminate|]. intros _ Hr HP.
  destruct (chk (f r)) as [err|] eqn:Hc; [|reflexivity].
  assert (He : err ∈ omap (fun r => if decide (P r) then chk (f r) else None) rows).
  { apply list_elem_of_omap. exists r. split; [exact Hr|].
    destruct (decide (P r)); [exact Hc | contradiction]. }
  destruct (omap _ rows); [inversion He | discriminate].
Qed.

Lemma db_update_preserves {A : Type} (P : A -> Prop) `{!forall x, Decision (P x)}
    (f : A -> A) chk (Q : A -> Prop) (rows rows' : list A) :
  (forall r, chk r = None -> Q r) ->
  db_update P f chk rows = Ok rows' ->
  Forall Q rows -> Forall Q rows'.
Proof.
  intros Hchk Hup Hall.
  rewrite (db_update_Ok _ _ _ _ _ Hup).
  apply Forall_fmap, Forall_forall. intros r Hr. cbn.
  destruct (decide (P r)) as [HP|_].
  - apply Hchk. exact (db_update_Ok_checked _ _ _ _ _ _ Hup Hr HP).
  - rewrite Forall_forall in Hall. auto.
Qed.

Lemma row_checked_within_limit pl :
  payment_link_row_error pl = None -> within_limit pl.
Proof.
  unfold payment_link_row_error, within_limit, check_uses_limit.
  intros Hrow m Hm. rewrite Hm in Hrow.
  split_matches Hrow; try discriminate.
  apply Z.leb_le. apply negb_false_iff. assumption.
Qed.

(** The counter update goes through only where the link still has a free
    use at the time of the write. *)
Lemma update_link_uses_guarded fault nw id links links' pl m :
  update_link_uses fault nw id links = Ok links' ->
  pl ∈ links -> pl_id pl = id -> pl_max_uses pl = Some m ->
  pl_current_uses pl < m.
Proof.
  unfold update_link_uses. destruct fault; [discriminate|].
  intros Hup Hin Hid Hm.
  pose proof (db_update_Ok_checked _ _ _ _ _ _ Hup Hin Hid) as Hrow.
  apply row_checked_within_limit in Hrow. specialize (Hrow m Hm). cbn in Hrow. lia.
Qed.

Lemma db_update_Ok_all {A : Type} (P : A -> Prop) `{!forall x, Decision (P x)}
    (f : A -> A) chk (Q : A -> Prop) (rows rows' : list A) :
  (forall r, Q r -> Q (f r)) ->
  db_update P f chk rows = Ok rows' ->
  Forall Q rows -> Forall Q rows'.
Proof.
  intros Hf Hup Hall.
  rewrite (db_update_Ok _ _ _ _ _ Hup).
  apply Forall_fmap, Forall_forall. intros r Hr. cbn.
  rewrite Forall_forall in Hall.
  destruct (decide (P r)); auto.
Qed.

(** ** A redemption run on its own *)

Lemma advance_last rt nw links txs ts t :
  step rt {| now := nw; payment_links := links; transactions := txs;
             tasks := (ts ++ [t])%list |} (Advance (length ts))
  = let '(links', txs', p) := segment rt nw links txs t in
    {| now := nw; payment_links := links'; transactions := txs';
       tasks := (ts ++ [at_pc t p])%list |}.
Proof.
  unfold step; cbn [tasks now payment_links transactions].
  rewrite list_lookup_middle by reflexivity.
  destruct (segment rt nw links txs t) as [[links' txs'] p].
  f_equal.
  rewrite insert_app_r_alt by lia.
  rewrite Nat.sub_diag. reflexivity.
Qed.

Lemma run_solo rt n : forall nw links txs ts t,
  run rt {| now := nw; payment_links := links; transactions := txs;
            tasks := (ts ++ [t])%list |} (replicate n (Advance (length ts)))
  = let '(links', txs', t') := segments n rt nw links txs t in
    {| now := nw; payment_links := links'; transactions := txs';
       tasks := (ts ++ [t'])%list |}.
Proof.
  induction n as [|n IH]; intros nw links txs ts t; [reflexivity|].
  cbn [replicate]. unfold run in *. cbn [fold_left].
  rewrite advance_last. cbn [segments].
  destruct (segment rt nw links txs t) as [[links' txs'] p].
  apply IH.
Qed.

Lemma process_segments rt w l b e :
  process rt w l b e
  = let '(links', txs', t') :=
      segments 5 rt (now w) (payment_links w) (transactions w)
        {| linkId := l; body := b; env := e; pc := AtStart |} in
    {| now := now w; payment_links := links'; transactions := txs';
       tasks := (tasks w ++ [t'])%list |}.
Proof.
  unfold process.
  change (run rt w (Submit l b e :: ?evs)) with (run rt (step rt w (Submit l b e)) evs).
  cbn [step].
  apply (run_solo rt 5).
Qed.

Lemma segments_responded n rt nw links txs t r :
  pc t = Responded r ->
  segments n rt nw links txs t = (links, txs, at_pc t (Responded r)).
Proof.
  revert t. induction n as [|n IH]; intros t Hpc.
  - destruct t; cbn in *; subst; reflexivity.
  - cbn [segments]. unfold segment. rewrite Hpc.
    rewrite (IH (at_pc t (Responded r))) by reflexivity. reflexivity.
Qed.

Lemma response_of_process rt w l b e links txs t r :
  segments 5 rt (now w) (payment_links w) (transactions w)
    {| linkId := l; body := b; env := e; pc := AtStart |} = (links, txs, t) ->
  pc t = Responded r ->
  response_of w (process rt w l b e) = Some r
  /\ payment_links (process rt w l b e) = links
  /\ transactions (process rt w l b e) = txs.
Proof.
  intros Hs Hpc. rewrite process_segments, Hs. unfold response_of.
  cbn [tasks payment_links transactions].
  rewrite list_lookup_middle by reflexivity.
  destruct t; cbn in *; subst; auto.
Qed.

(** ** The guards on the link *)





(** From the guards on, a run that is let through ends with the card-expiry
    refusal, a receipt, or a thrown error. *)
Lemma segments_after_select rt nw links txs t pl rest :
  pc t = AfterSelect (pl :: rest) ->
  link_precheck nw pl = None ->
  exists links' txs' r, segments 4 rt nw links txs t = (links', txs', at_pc t (Responded r))
                        /\ past_precheck r.
Proof.
  intros Hpc Hpre.
  cbn [segments]. unfold segment at 1. rewrite Hpc, Hpre.
  destruct (card_expired _ _ _ _).
  { do 3 eexists. split; [reflexivity | exact I]. }
  destruct (insert_transaction _ _ _ _) as [txs1|err].
  2:{ do 3 eexists. split; [reflexivity | exact I]. }
  cbn [segment pc at_pc body env linkId].
  destruct (update_transaction _ _ _ _ _) as [txs2|err].
  2:{ do 3 eexists. split; [reflexivity | exact I]. }
  destruct (status _).
  1,2,4,5: do 3 eexists; split; [reflexivity | exact I].
  cbn [segment pc at_pc body env linkId].
  destruct (update_link_uses _ _ _ _) as [links2|err];
    do 3 eexists; (split; [reflexivity | exact I]).
Qed.

Lemma segments_S n rt nw links txs t :
  segments (S n) rt nw links txs t
  = let '(links', txs', p) := segment rt nw links txs t in
    segments n rt nw links' txs' (at_pc t p).
Proof. reflexivity. Qed.

Lemma segments_select rt nw links txs l b e pl rest n :
  validate_process rt b = [] ->
  select_fault e = false ->
  filter (fun r => pl_link_id r = l) links = pl :: rest ->
  segments (S n) rt nw links txs {| linkId := l; body := b; env := e; pc := AtStart |}
  = segments n rt nw links txs
      {| linkId := l; body := b; env := e; pc := AfterSelect (pl :: rest) |}.
Proof.
  intros Hval Hsel Hrows. rewrite segments_S. unfold segment.
  cbn [pc body env linkId]. rewrite Hval. unfold select_link_by_link_id.
  rewrite Hsel, Hrows. reflexivity.
Qed.

Lemma segments_rejected rt nw links txs l b e pl rest r :
  validate_process rt b = [] ->
  select_fault e = false ->
  filter (fun x => pl_link_id x = l) links = pl :: rest ->
  link_precheck nw pl = Some r ->
  segments 5 rt nw links txs {| linkId := l; body := b; env := e; pc := AtStart |}
  = (links, txs, {| linkId := l; body := b; env := e; pc := Responded r |}).
Proof.
  intros Hval Hsel Hrows Hpre.
  rewrite (segments_select _ _ _ _ _ _ _ pl rest) by assumption.
  rewrite segments_S. unfold segment. cbn [pc body env linkId]. rewrite Hpre.
  rewrite (segments_responded 3 _ _ _ _ _ r) by reflexivity. reflexivity.
Qed.

(** ** Links in reachable worlds *)

Lemma run_invariant rt (I : World -> Prop) :
  (forall w ev, I w -> I (step rt w ev)) ->
  forall evs w, I w -> I (run rt w evs).
Proof.
  intros Hstep. induction evs as [|ev evs IH]; intros w Hw; [exact Hw|].
  apply (IH (step rt w ev)), Hstep, Hw.
Qed.

Lemma segment_links rt nw links txs t links' txs' p :
  segment rt nw links txs t = (links', txs', p) ->
  links' = links
  \/ exists id, update_link_uses (uses_fault (env t)) nw id links = Ok links'.
Proof.
  unfold segment. intros Hseg.
  split_matches Hseg; injection Hseg as <- <- <-; eauto.
Qed.



Lemma step_within_limit rt w ev :
  Forall within_limit (payment_links w) ->
  Forall within_limit (payment_links (step rt w ev)).
Proof.
  intros Hinv. destruct ev as [dt|user b e|user l b fault|l b e|i]; cbn; try exact Hinv.
  - unfold create_link. destruct (validate_create rt b); [|exact Hinv].
    unfold insert_payment_link. destruct (create_fault e); [exact Hinv|].
    destruct (payment_link_row_error _) eqn:Hrow; [exact Hinv|].
    case_bool_decide; [exact Hinv|]. cbn.
    apply Forall_app. split; [exact Hinv|].
    apply Forall_singleton, row_checked_within_limit, Hrow.
  - unfold update_link. destruct (validate_update b); [|exact Hinv].
    destruct fault; [exact Hinv|]. destruct (filter _ _); [exact Hinv|].
    destruct (new_description b), (new_isActive b); cbn; try exact Hinv.
    all: match goal with
         | |- context [db_update ?P ?f ?c ?ls] =>
             destruct (db_update P f c ls) as [links2|err] eqn:Hup
         end; [|exact Hinv].
    all: exact (db_update_preserves _ _ _ _ _ _ row_checked_within_limit Hup Hinv).
  - destruct (tasks w !! i) as [t|]; [|exact Hinv].
    destruct (segment rt (now w) (payment_links w) (transactions w) t)
      as [[links' txs'] p] eqn:Hseg. cbn.
    destruct (segment_links _ _ _ _ _ _ _ _ Hseg) as [-> | (id & Hup)]; [exact Hinv|].
    unfold update_link_uses in Hup. destruct (uses_fault (env t)); [discriminate|].
    exact (db_update_preserves _ _ _ _ _ _ row_checked_within_limit Hup Hinv).
Qed.

(** X1. In every world the server can reach, through any interleaving of the
    runs, the counter [current_uses] of a link with a cap is at most its
    [max_uses]: the table constraint [check_uses_limit] refuses every write
    that would take it further. *)
Lemma uses_never_exceed_limit rt w :
  reachable rt w -> Forall within_limit (payment_links w).
Proof.
  intros (t0 & evs & ->).
  apply (run_invariant rt (fun w => Forall within_limit (payment_links w))).
  - intros w ev. apply step_within_limit.
  - constructor.
Qed.



(** ** The run after the ledger entry *)

(** The finalize write of a run whose row [t0] has just been inserted touches
    that row only. *)
Lemma update_transaction_own_row fault nw d txs t0 :
  Forall (fun r => tx_id r <> tx_id t0) txs ->
  update_transaction fault nw d (tx_id t0) (txs ++ [t0])
  = if fault then Err ConnectionError
    else match transaction_row_error (set_bank_response nw d t0) with
         | Some e => Err e
         | None => Ok (txs ++ [set_bank_response nw d t0])%list
         end.
Proof.
  intros Hfresh. unfold update_transaction. destruct fault; [reflexivity|].
  apply (db_update_snoc (fun r => tx_id r = tx_id t0)); [exact Hfresh | reflexivity].
Qed.

(** The four segments that follow the SELECT, for a request that the guards
    let through and whose row is accepted. *)
Lemma segments_persisted rt nw links txs t pl rest txs1 :
  pc t = AfterSelect (pl :: rest) ->
  link_precheck nw pl = None ->
  card_expired rt nw (default 0 (expiryYear (body t))) (default 0 (expiryMonth (body t))) = false ->
  insert_transaction (insert_fault (env t))
    (new_transaction rt nw (uuid (env t)) pl (body t)) links txs = Ok txs1 ->
  let d := snd (simulateBankAPI (jitter (env t)) (payment_data pl (body t))) in
  let receipt := receipt_of nw pl (uuid (env t)) nw d in
  segments 4 rt nw links txs t
  = match update_transaction (update_fault (env t)) nw d (uuid (env t)) txs1 with
    | Err err => (links, txs1, at_pc t (Responded (Thrown err)))
    | Ok txs2 =>
        match status d with
        | completed =>
            match update_link_uses (uses_fault (env t)) nw (pl_id pl) links with
            | Err err => (links, txs2, at_pc t (Responded (Thrown err)))
            | Ok links' => (links', txs2, at_pc t (Responded (Processed receipt)))
            end
        | _ => (links, txs2, at_pc t (Responded (Processed receipt)))
        end
    end.
Proof.
  intros Hpc Hpre Hcard Hins d receipt.
  rewrite segments_S. unfold segment. rewrite Hpc, Hpre, Hcard, Hins.
  rewrite segments_S. unfold segment. cbn [pc at_pc body env].
  rewrite segments_S. unfold segment. cbn [pc at_pc body env].
  fold d.
  destruct (update_transaction _ _ _ _ _) as [txs2|err].
  2:{ rewrite (segments_responded 1 _ _ _ _ _ (Thrown err)) by reflexivity. reflexivity. }
  destruct (status d) eqn:Hst.
  1,2,4,5: rewrite (segments_responded 1 _ _ _ _ _ (Processed receipt)) by reflexivity;
    reflexivity.
  rewrite segments_S. unfold segment. cbn [pc at_pc body env].
  destruct (update_link_uses _ _ _ _); reflexivity.
Qed.

(** A run either stops before its INSERT has stored a row, leaving both tables
    as they were, or has passed validation, resolution, the guards and the
    card-expiry check and has inserted its row. *)
Lemma segments_cases rt nw links txs l b e :
  (exists r, refusal r
     /\ segments 5 rt nw links txs {| linkId := l; body := b; env := e; pc := AtStart |}
        = (links, txs, {| linkId := l; body := b; env := e; pc := Responded r |}))
  \/ (exists pl rest txs1,
        validate_process rt b = []
        /\ select_fault e = false
        /\ filter (fun x => pl_link_id x = l) links = pl :: rest
        /\ link_precheck nw pl = None
        /\ card_expired rt nw (default 0 (expiryYear b)) (default 0 (expiryMonth b)) = false
        /\ insert_transaction (insert_fault e) (new_transaction rt nw (uuid e) pl b) links txs
           = Ok txs1).
Proof.
  rewrite segments_S. unfold segment. cbn [pc at_pc body env linkId].
  destruct (validate_process rt b) eqn:Hval.
  2:{ left. eexists. erewrite (segments_responded 4) by reflexivity.
      split; [|reflexivity]. exact I. }
  unfold select_link_by_link_id. destruct (select_fault e) eqn:Hsel.
  { left. eexists. erewrite (segments_responded 4) by reflexivity.
    split; [|reflexivity]. exact I. }
  rewrite segments_S. unfold segment. cbn [pc at_pc body env linkId].
  destruct (filter _ links) as [|pl rest] eqn:Hrows.
  { left. eexists. erewrite (segments_responded 3) by reflexivity.
    split; [|reflexivity]. exact I. }
  destruct (link_precheck nw pl) as [r|] eqn:Hpre.
  { left. exists r. erewrite (segments_responded 3) by reflexivity.
    split; [|reflexivity].
    unfold link_precheck in Hpre.
    repeat match type of Hpre with context [if ?c then _ else _] => destruct c end;
      inversion Hpre; exact I. }
  destruct (card_expired _ _ _ _) eqn:Hcard.
  { left. eexists. erewrite (segments_responded 3) by reflexivity.
    split; [|reflexivity]. exact I. }
  destruct (insert_transaction _ _ _ _) as [txs1|err] eqn:Hins.
  2:{ left. eexists. erewrite (segments_responded 3) by reflexivity.
      split; [|reflexivity]. exact I. }
  right. exists pl, rest, txs1. auto 10.
Qed.

(** The whole run of a request that is let through and whose row is
    accepted, in closed form. *)
Lemma segments_closed_form rt nw links txs l b e pl rest txs1 :
  validate_process rt b = [] ->
  select_fault e = false ->
  filter (fun x => pl_link_id x = l) links = pl :: rest ->
  link_precheck nw pl = None ->
  card_expired rt nw (default 0 (expiryYear b)) (default 0 (expiryMonth b)) = false ->
  insert_transaction (insert_fault e) (new_transaction rt nw (uuid e) pl b) links txs
  = Ok txs1 ->
  let t0 := new_transaction rt nw (uuid e) pl b in
  let d := snd (simulateBankAPI (jitter e) (payment_data pl b)) in
  let finalized := set_bank_response nw d t0 in
  let receipt := receipt_of nw pl (uuid e) nw d in
  let answer r := {| linkId := l; body := b; env := e; pc := Responded r |} in
  segments 5 rt nw links txs {| linkId := l; body := b; env := e; pc := AtStart |}
  = if update_fault e then (links, (txs ++ [t0])%list, answer (Thrown ConnectionError))
    else match transaction_row_error finalized with
         | Some err => (links, (txs ++ [t0])%list, answer (Thrown err))
         | None =>
             match status d with
             | completed =>
                 match update_link_uses (uses_fault e) nw (pl_id pl) links with
                 | Err err => (links, (txs ++ [finalized])%list, answer (Thrown err))
                 | Ok links' => (links', (txs ++ [finalized])%list, answer (Processed receipt))
                 end
             | _ => (links, (txs ++ [finalized])%list, answer (Processed receipt))
             end
         end.
Proof.
  intros Hval Hsel Hrows Hpre Hcard Hins t0 d finalized receipt answer.
  rewrite (segments_select _ _ _ _ _ _ _ pl rest) by assumption.
  rewrite (segments_persisted rt nw links txs
             {| linkId := l; body := b; env := e; pc := AfterSelect (pl :: rest) |}
             pl rest txs1 eq_refl Hpre Hcard Hins).
  cbn [env body at_pc linkId].
  destruct (insert_transaction_Ok _ _ _ _ _ Hins) as (-> & Hfresh & _).
  fold t0 in Hfresh |- *. fold d.
  change (uuid e) with (tx_id t0) at 1.
  rewrite (update_transaction_own_row _ _ _ _ _ Hfresh). fold finalized.
  destruct (update_fault e); [reflexivity|].
  destruct (transaction_row_error finalized); [reflexivity|].
  destruct (status d); reflexivity.
Qed.




(** A run changes the link table only at its last statement, which it reaches
    only after the bank has approved. *)
Lemma link_table_frame rt w l b e :
  let w' := process rt w l b e in
  payment_links w' = payment_links w
  \/ exists r, response_of w w' = Some (Processed r) /\ r_status r = completed.
Proof.
  intros w'. subst w'.
  destruct (segments_cases rt (now w) (payment_links w) (transactions w) l b e)
    as [(r & _ & Hstop) | (pl & rest & txs1 & Hval & Hsel & Hrows & Hpre & Hcard & Hins)].
  { destruct (response_of_process _ _ _ _ _ _ _ _ r Hstop eq_refl) as (_ & Hl & _).
    left. exact Hl. }
  pose proof (segments_closed_form _ _ _ _ _ _ _ pl rest txs1 Hval Hsel Hrows Hpre Hcard Hins)
    as Hrun. cbv zeta in Hrun.
  destruct (update_fault e).
  { destruct (response_of_process _ _ _ _ _ _ _ _ _ Hrun eq_refl) as (_ & Hl & _).
    left. exact Hl. }
  destruct (transaction_row_error _).
  { destruct (response_of_process _ _ _ _ _ _ _ _ _ Hrun eq_refl) as (_ & Hl & _).
    left. exact Hl. }
  destruct (status _) eqn:Hst.
  3:{ destruct (update_link_uses _ _ _ _);
        destruct (response_of_process _ _ _ _ _ _ _ _ _ Hrun eq_refl) as (Hr & Hl & _);
        [|left; exact Hl].
      right. eexists. split; [exact Hr | exact Hst]. }
  all: destruct (response_of_process _ _ _ _ _ _ _ _ _ Hrun eq_refl) as (_ & Hl & _);
    left; exact Hl.
Qed.

(** C8, as stated, fails for an unknown token sent with a malformed card: the
    field validation runs before the link is looked up and answers first. *)
Lemma unknown_token_with_malformed_card :
  filter (fun x => pl_link_id x = "ffffffffffffffff") (payment_links Demo.shop) = []
  /\ response_of Demo.shop
       (process Demo.rt Demo.shop "ffffffffffffffff" Demo.malformed_card (Demo.quiet "tx-1"))
     = Some (ValidationFailed
               [ {| path := "cardNumber";
                    msg := "Card number must be between 13 and 19 digits" |} ]).
Proof. vm_compute. auto. Qed.

(** C8 (amended). For a token that matches no stored link: a request that
    passes field validation is answered [NotFound] (when the lookup itself
    does not throw); a request that fails validation is answered with the list
    of validation errors, the link not being looked up at all; and in every
    case neither table changes. *)
Theorem unknown_token_after_validation rt w l b e :
  filter (fun x => pl_link_id x = l) (payment_links w) = [] ->
  let w' := process rt w l b e in
  (validate_process rt b = [] -> select_fault e = false ->
   response_of w w' = Some NotFound)
  /\ (validate_process rt b <> [] ->
      response_of w w' = Some (ValidationFailed (validate_process rt b)))
  /\ transactions w' = transactions w
  /\ payment_links w' = payment_links w.
Proof.
  intros Hrows w'. subst w'.
  assert (Hrun : exists r,
            segments 5 rt (now w) (payment_links w) (transactions w)
              {| linkId := l; body := b; env := e; pc := AtStart |}
            = (payment_links w, transactions w,
               {| linkId := l; body := b; env := e; pc := Responded r |})
            /\ (validate_process rt b = [] -> select_fault e = false -> r = NotFound)
            /\ (validate_process rt b <> [] -> r = ValidationFailed (validate_process rt b))).
  { rewrite segments_S. unfold segment. cbn [pc at_pc body env linkId].
    destruct (validate_process rt b) eqn:Hval.
    2:{ eexists. erewrite (segments_responded 4) by reflexivity.
        split; [reflexivity|]. split; [discriminate | reflexivity]. }
    unfold select_link_by_link_id. destruct (select_fault e).
    { eexists. erewrite (segments_responded 4) by reflexivity.
      split; [reflexivity|]. split; [discriminate | congruence]. }
    rewrite segments_S. unfold segment. cbn [pc at_pc body env linkId]. rewrite Hrows.
    eexists. erewrite (segments_responded 3) by reflexivity.
    split; [reflexivity|]. split; [reflexivity | congruence]. }
  destruct Hrun as (r & Hseg & Hfound & Hinvalid).
  destruct (response_of_process _ _ _ _ _ _ _ _ r Hseg eq_refl) as (Hr & Hl & Ht).
  split; [intros H1 H2; rewrite Hr, (Hfound H1 H2); reflexivity|].
  split; [intros H1; rewrite Hr, (Hinvalid H1); reflexivity|].
  auto.
Qed.

(** C8 (amended), at an unknown token sent with a well-formed request. *)
Lemma unknown_token_after_validation_witness :
  response_of Demo.shop
    (process Demo.rt Demo.shop "ffffffffffffffff" Demo.good_card (Demo.quiet "tx-1"))
  = Some NotFound.
Proof.
  refine (proj1 (unknown_token_after_validation Demo.rt Demo.shop "ffffffffffffffff"
                   Demo.good_card (Demo.quiet "tx-1") _) _ _).
  - vm_compute; reflexivity.
  - vm_compute; reflexivity.
  - reflexivity.
Defined.

(** ** Declines *)

(** X20. A decline whose response code fits its column is recorded on the row, and
    the link is left alone: this is the path of a card refused for
    insufficient funds. *)
Lemma recorded_decline rt w l b e r :
  let w' := process rt w l b e in
  response_of w w' = Some (Processed r) ->
  r_status r = failed ->
  payment_links w' = payment_links w
  /\ exists t, transactions w' = (transactions w ++ [t])%list
       /\ tx_id t = uuid e
       /\ tx_status t = failed
       /\ tx_bank_response_code t = Some (responseCode (r_bankResponse r))
       /\ tx_bank_response_message t = Some (responseMessage (r_bankResponse r))
       /\ tx_failure_reason t = failureReason (r_bankResponse r).
Proof.
  intros w' Hresp Hfailed. subst w'.
  split.
  { destruct (link_table_frame rt w l b e) as [Hsame | (r' & Hr' & Hc)]; [exact Hsame|].
    rewrite Hresp in Hr'. injection Hr' as <-. congruence. }
  destruct (segments_cases rt (now w) (payment_links w) (transactions w) l b e)
    as [(r0 & Hrefusal & Hstop) | (pl & rest & txs1 & Hval & Hsel & Hrows & Hpre & Hcard & Hins)].
  { destruct (response_of_process _ _ _ _ _ _ _ _ r0 Hstop eq_refl) as (Hr & _ & _).
    rewrite Hresp in Hr. injection Hr as <-. destruct Hrefusal. }
  pose proof (segments_closed_form _ _ _ _ _ _ _ pl rest txs1 Hval Hsel Hrows Hpre Hcard Hins)
    as Hrun. cbv zeta in Hrun.
  destruct (update_fault e).
  { destruct (response_of_process _ _ _ _ _ _ _ _ _ Hrun eq_refl) as (Hr & _ & _).
    rewrite Hresp in Hr. discriminate. }
  destruct (transaction_row_error _).
  { destruct (response_of_process _ _ _ _ _ _ _ _ _ Hrun eq_refl) as (Hr & _ & _).
    rewrite Hresp in Hr. discriminate. }
  destruct (status _) eqn:Hst.
  3:{ destruct (update_link_uses _ _ _ _);
        destruct (response_of_process _ _ _ _ _ _ _ _ _ Hrun eq_refl) as (Hr & _ & _);
        rewrite Hresp in Hr; [|discriminate].
      injection Hr as ->. cbn in Hfailed. congruence. }
  all: destruct (response_of_process _ _ _ _ _ _ _ _ _ Hrun eq_refl) as (Hr & _ & Ht);
    rewrite Hresp in Hr; injection Hr as ->; cbn in Hfailed; try congruence.
  eexists. split; [exact Ht|]. cbn. rewrite Hst. auto 10.
Qed.

(** The decline for insufficient funds, on the single-use link: the row is
    finalized as [failed] with the bank's code, message and reason, and the
    counter stays at 0. *)
Example insufficient_funds_is_recorded :
  let w' := process Demo.rt Demo.shop Demo.token Demo.poor_card (Demo.quiet "tx-1") in
  (fun t => (tx_status t, tx_bank_response_code t, tx_bank_response_message t,
             tx_failure_reason t)) <$> transactions w'
  = [(failed, Some "DECLINED", Some "Card declined by issuer", Some "Insufficient funds")]
  /\ pl_current_uses <$> payment_links w' = [0]
  /\ payment_links w' = payment_links Demo.shop.
Proof. vm_compute. auto. Qed.

(** C5 at a card whose CVV ends in 0.  The bank declines with the code
    [INVALID_CVV], eleven characters long; [bank_response_code] is
    [VARCHAR(10)], so the finalize write is refused: the caller is answered
    with the thrown error and the row keeps its [processing] status, without
    code, message or reason.  The link is unchanged. *)
Theorem cvv_decline_is_not_recorded :
  let pl := new_payment_link Demo.rt Demo.t0 "merchant" Demo.once Demo.once_env in
  let w' := process Demo.rt Demo.shop Demo.token Demo.bad_cvv_card (Demo.quiet "tx-1") in
  payment_links Demo.shop = [pl]
  /\ snd (simulateBankAPI 1500 (payment_data pl Demo.bad_cvv_card)) = invalid_cvv
  /\ String.length (responseCode invalid_cvv) = 11%nat
  /\ response_of Demo.shop w' = Some (Thrown StringTooLong)
  /\ (fun t => (tx_status t, tx_bank_response_code t, tx_bank_response_message t,
                tx_failure_reason t)) <$> transactions w'
     = [(processing, None, None, None)]
  /\ payment_links w' = payment_links Demo.shop.
Proof. vm_compute. auto 10. Qed.

(** ** The bank call *)




(** ** Link creation *)

(** A request that fails validation is answered with all the errors found and
    stores nothing. *)
Lemma create_link_invalid rt nw user b e links :
  validate_create rt b <> [] ->
  create_link rt nw user b e links
  = (links, CreateValidationFailed (validate_create rt b)).
Proof.
  intros Hbad. unfold create_link.
  destruct (validate_create rt b); [contradiction | reflexivity].
Qed.

Lemma check_field_path ok p m q :
  q ∈ path <$> check_field ok p m <-> ok = false /\ q = p.
Proof.
  unfold check_field. destruct ok; cbn.
  - split; [intros H; inversion H | intros [H _]; discriminate].
  - rewrite list_elem_of_singleton. split; [auto | tauto].
Qed.

(** Every field that fails its validator is named in the error list, not only
    the first one: a field is listed exactly when its own check fails. *)
Lemma validate_create_lists_every_field rt b :
  ("amount" ∈ path <$> validate_create rt b
     <-> from_option (QArith_base.Qle_bool Qcent) false (amount b) = false)
  /\ ("currency" ∈ path <$> validate_create rt b
     <-> from_option (Js.isLength 3 3) true (currency b) = false)
  /\ ("description" ∈ path <$> validate_create rt b
     <-> from_option (Js.isLength 0 500) true (description b) = false)
  /\ ("expiresAt" ∈ path <$> validate_create rt b
     <-> exists s, expiresAt b = Some s /\ parseISO8601 rt s = None)
  /\ ("maxUses" ∈ path <$> validate_create rt b
     <-> maxUses b = Invalid \/ exists n, maxUses b = Present n /\ n < 1).
Proof.
  unfold validate_create.
  repeat rewrite fmap_app. repeat setoid_rewrite elem_of_app.
  repeat setoid_rewrite check_field_path.
  repeat split; intros H.
  - destruct H as [[H _]|[[_ H]|[[_ H]|[[_ H]|[_ H]]]]]; [exact H | discriminate..].
  - auto.
  - destruct H as [[_ H]|[[H _]|[[_ H]|[[_ H]|[_ H]]]]]; [discriminate | exact H | discriminate..].
  - auto.
  - destruct H as [[_ H]|[[_ H]|[[H _]|[[_ H]|[_ H]]]]];
      [discriminate | discriminate | exact H | discriminate..].
  - auto 6.
  - destruct H as [[_ H]|[[_ H]|[[_ H]|[[H _]|[_ H]]]]];
      [discriminate | discriminate | discriminate | | discriminate].
    destruct (expiresAt b) as [s|]; cbn in H; [|discriminate].
    exists s. split; [reflexivity|].
    case_bool_decide as Hs; [discriminate|].
    destruct (parseISO8601 rt s); [exfalso; apply Hs; eauto | reflexivity].
  - destruct H as (s & Hs & Hp). right. right. right. left. split; [|reflexivity].
    rewrite Hs. cbn. rewrite Hp. case_bool_decide as Hx; [|reflexivity].
    destruct Hx as [x Hx]. discriminate.
  - destruct H as [[_ H]|[[_ H]|[[_ H]|[[_ H]|[H _]]]]];
      [discriminate | discriminate | discriminate | discriminate |].
    destruct (maxUses b) as [| |n]; [discriminate | auto |].
    right. exists n. split; [reflexivity|]. apply Z.leb_gt in H. lia.
  - do 4 right. split; [|reflexivity].
    destruct H as [-> | (n & -> & Hn)]; [reflexivity|]. apply Z.leb_gt. lia.
Qed.

(** The expiry of a new link is never compared with the clock: whatever
    instant an accepted [expiresAt] denotes is stored. *)
Lemma create_link_stores_given_expiry rt nw user b e c r x :
  expiresAt b = Some (String c r) ->
  parseISO8601 rt (String c r) = Some x ->
  pl_expires_at (new_payment_link rt nw user b e) = Some x.
Proof.
  intros Hs Hx. unfold new_payment_link, expiryDate. cbn. rewrite Hs. exact Hx.
Qed.

(** C7 at a request whose [expiresAt] is 2020-01-01, sent in 2026: it passes
    validation and the link is created, already expired. *)
Theorem past_expiry_is_accepted :
  let answer := create_link Demo.rt Demo.t0 "merchant" Demo.stale Demo.stale_env [] in
  let pl := new_payment_link Demo.rt Demo.t0 "merchant" Demo.stale Demo.stale_env in
  validate_create Demo.rt Demo.stale = []
  /\ answer = ([pl], Created pl)
  /\ pl_expires_at pl = Some 1577836800000
  /\ 1577836800000 < Demo.t0.
Proof. vm_compute. auto. Qed.



Example parseInt_24 : Js.parseInt "24" = Some 24.
Proof. reflexivity. Qed.

Example parseInt_48_hours : Js.parseInt " 48 hours" = Some 48.
Proof. reflexivity. Qed.

Example parseInt_words : Js.parseInt "one day" = None.
Proof. reflexivity. Qed.

Example parseInt_hex : Js.parseInt "0x18" = Some 24.
Proof. reflexivity. Qed.

(** ** Two redemptions racing for the last use *)

(** C1 at two approved redemptions of a single-use link that both read the
    link before either finalizes.  The world [Demo.raced] is reached from the
    empty server; in it the link, with [max_uses = 1], has two [completed]
    transactions. *)
Theorem capacity_exceeded_by_interleaving :
  let id := row_uuid Demo.once_env in
  Demo.raced
  = run Demo.rt (init Demo.t0) (CreateLink "merchant" Demo.once Demo.once_env :: Demo.race)
  /\ (fun pl => (pl_id pl, pl_max_uses pl, pl_current_uses pl)) <$> payment_links Demo.raced
     = [(id, Some 1, 1)]
  /\ (fun t => (tx_id t, tx_payment_link_id t, tx_status t)) <$> transactions Demo.raced
     = [("tx-a", id, completed); ("tx-b", id, completed)]
  /\ length (completed_of id (transactions Demo.raced)) = 2%nat.
Proof. vm_compute. auto. Qed.

(** C2 at the second redemption of the same race, parked before its update
    of the counter.  The update is refused by [check_uses_limit] and changes
    no row; the run answers with the thrown error, and its transaction keeps
    the [completed] status written one statement earlier. *)
Theorem lost_slot_stays_completed :
  let id := row_uuid Demo.once_env in
  let w' := step Demo.rt Demo.raced (Advance 1%nat) in
  update_link_uses false (now Demo.raced) id (payment_links Demo.raced)
  = Err (CheckViolation "check_uses_limit")
  /\ payment_links w' = payment_links Demo.raced
  /\ pc <$> tasks w' !! 1%nat = Some (Responded (Thrown (CheckViolation "check_uses_limit")))
  /\ (fun t => (tx_id t, tx_status t, tx_failure_reason t)) <$> transactions w'
     = [("tx-a", completed, None); ("tx-b", completed, None)].
Proof. vm_compute. auto. Qed.

(** ** The ledger under interleaving *)

(** What one segment does to the ledger: nothing, or it appends a fresh
    [processing] row that the run will finalize, or it finalizes the row the
    run was holding. *)
Lemma segment_txs rt nw links txs t links' txs' p :
  segment rt nw links txs t = (links', txs', p) ->
  (txs' = txs /\ forall id, live_tx p = Some id -> live_tx (pc t) = Some id)
  \/ (exists t0, txs' = (txs ++ [t0])%list
        /\ tx_status t0 = processing
        /\ Forall (fun r => tx_id r <> tx_id t0) txs
        /\ live_tx p = Some (tx_id t0))
  \/ (exists id d, live_tx (pc t) = Some id
        /\ live_tx p = None
        /\ txs' = (fun r => if decide (tx_id r = id) then set_bank_response nw d r else r)
                  <$> txs).
Proof.
  unfold segment. intros Hseg.
  destruct (pc t) as [|rows|pl id created|pl id created d|pl id created d|r] eqn:Hpc.
  - left.
    split_matches Hseg; injection Hseg as <- <- <-; (split; [reflexivity | intros ? [=]]).
  - destruct rows as [|paymentLink rest].
    { left. injection Hseg as <- <- <-. split; [reflexivity | intros ? [=]]. }
    destruct (link_precheck nw paymentLink).
    { left. injection Hseg as <- <- <-. split; [reflexivity | intros ? [=]]. }
    destruct (card_expired _ _ _ _).
    { left. injection Hseg as <- <- <-. split; [reflexivity | intros ? [=]]. }
    destruct (insert_transaction _ _ _ _) as [txs1|err] eqn:Hins.
    2:{ left. injection Hseg as <- <- <-. split; [reflexivity | intros ? [=]]. }
    right. left. injection Hseg as <- <- <-.
    destruct (insert_transaction_Ok _ _ _ _ _ Hins) as (-> & Hfresh & _).
    eexists. split; [reflexivity|]. split; [reflexivity|]. split; [exact Hfresh|].
    reflexivity.
  - left. injection Hseg as <- <- <-. split; [reflexivity|]. cbn. auto.
  - destruct (update_transaction _ _ _ _ _) as [txs2|err] eqn:Hup.
    2:{ left. injection Hseg as <- <- <-. split; [reflexivity | intros ? [=]]. }
    right. right. exists id, d.
    unfold update_transaction in Hup. destruct (update_fault (env t)); [discriminate|].
    apply db_update_Ok in Hup. subst txs2.
    destruct (status d); injection Hseg as <- <- <-; auto.
  - left. destruct (update_link_uses _ _ _ _); injection Hseg as <- <- <-;
      (split; [reflexivity | intros ? [=]]).
  - left. injection Hseg as <- <- <-. split; [reflexivity | intros ? [=]].
Qed.

Lemma NoDup_fmap_same_key {A K : Type} (f : A -> K) (l : list A) a b :
  NoDup (f <$> l) -> a ∈ l -> b ∈ l -> f a = f b -> a = b.
Proof.
  induction l as [|x l IH]; intros Hnd Ha Hb Hf; [inversion Ha|].
  cbn in Hnd. apply NoDup_cons in Hnd as [Hx Hnd].
  apply elem_of_cons in Ha as [-> | Ha]; apply elem_of_cons in Hb as [-> | Hb].
  - reflexivity.
  - exfalso. apply Hx. rewrite Hf. apply list_elem_of_fmap_2, Hb.
  - exfalso. apply Hx. rewrite <- Hf. apply list_elem_of_fmap_2, Ha.
  - auto.
Qed.

(** The invariant survives any change of the runs in flight that adds no
    claim on a ledger row, as long as the ledger itself is unchanged. *)
Lemma ledger_inv_same_ledger w nw links ts :
  ledger_inv w ->
  (forall j tj id, ts !! j = Some tj -> live_tx (pc tj) = Some id ->
     exists tj', tasks w !! j = Some tj' /\ live_tx (pc tj') = Some id) ->
  ledger_inv {| now := nw; payment_links := links; transactions := transactions w;
                tasks := ts |}.
Proof.
  intros (Hnd & Hwait & Hown) Hold. unfold ledger_inv. cbn.
  split; [exact Hnd|]. split.
  - intros i t id Hi Hlive. destruct (Hold _ _ _ Hi Hlive) as (t' & Hi' & Hlive').
    exact (Hwait _ _ _ Hi' Hlive').
  - intros i j ti tj id Hi Hj Hli Hlj.
    destruct (Hold _ _ _ Hi Hli) as (ti' & Hi' & Hli').
    destruct (Hold _ _ _ Hj Hlj) as (tj' & Hj' & Hlj').
    exact (Hown _ _ _ _ _ Hi' Hj' Hli' Hlj').
Qed.

Lemma set_bank_response_id nw d id r :
  tx_id (if decide (tx_id r = id) then set_bank_response nw d r else r) = tx_id r.
Proof. destruct (decide _); reflexivity. Qed.

(** One move of the server keeps the invariant, and keeps every row that has
    reached a terminal status exactly as it is. *)
Lemma step_ledger rt w ev :
  ledger_inv w ->
  ledger_inv (step rt w ev)
  /\ forall t, t ∈ transactions w -> terminal (tx_status t) = true ->
       t ∈ transactions (step rt w ev).
Proof.
  intros Hinv.
  destruct ev as [dt|user b e|user l b fault|l b e|i]; cbn [step].
  1-3: split; [apply (ledger_inv_same_ledger w); [exact Hinv | eauto] | auto].
  - split; [|auto].
    apply (ledger_inv_same_ledger w); [exact Hinv|].
    intros j tj id Hj Hlive. apply lookup_snoc_Some in Hj as [[_ Hj] | [_ <-]]; [eauto|].
    discriminate.
  - destruct (tasks w !! i) as [t|] eqn:Hi; [|auto].
    destruct (segment rt (now w) (payment_links w) (transactions w) t)
      as [[links' txs'] p] eqn:Hseg.
    assert (Hlook : forall j tj, <[i := at_pc t p]> (tasks w) !! j = Some tj ->
              (j = i /\ tj = at_pc t p) \/ (j <> i /\ tasks w !! j = Some tj)).
    { intros j tj Hj. apply list_lookup_insert_Some in Hj as [(-> & <- & _) | [Hne Hj]]; auto. }
    destruct (segment_txs _ _ _ _ _ _ _ _ Hseg)
      as [[-> Hlive] | [(t0 & -> & Hproc & Hfresh & Hlive) | (id & d & Hheld & Hlive & ->)]].
    + (* the ledger is untouched *)
      split; [|auto].
      apply (ledger_inv_same_ledger w); [exact Hinv|].
      intros j tj id Hj Hl. destruct (Hlook _ _ Hj) as [[-> ->] | [_ Hj']]; eauto.
    + (* a fresh row is appended *)
      destruct Hinv as (Hnd & Hwait & Hown).
      assert (Hnew : forall x, x ∈ transactions w -> tx_id x <> tx_id t0)
        by (rewrite Forall_forall in Hfresh; exact Hfresh).
      split; [|intros x Hx _; apply elem_of_app; auto].
      unfold ledger_inv. cbn [transactions tasks]. split; [|split].
      * rewrite fmap_app. apply NoDup_app. split; [exact Hnd|]. split.
        -- intros k Hk Hk'. apply list_elem_of_singleton in Hk'. subst k.
           apply list_elem_of_fmap in Hk as (x & Hkx & Hx). exact (Hnew x Hx (eq_sym Hkx)).
        -- apply NoDup_singleton.
      * intros j tj id Hj Hl. destruct (Hlook _ _ Hj) as [[-> ->] | [_ Hj']].
        -- cbn in Hl. rewrite Hlive in Hl. injection Hl as <-. split.
           ++ exists t0. split; [apply elem_of_app; right; left | reflexivity].
           ++ intros x Hx Hid. apply elem_of_app in Hx as [Hx | Hx].
              ** destruct (Hnew x Hx Hid).
              ** apply list_elem_of_singleton in Hx. subst x. exact Hproc.
        -- destruct (Hwait _ _ _ Hj' Hl) as [(x & Hx & Hxid) Hall]. split.
           ++ exists x. split; [apply elem_of_app; auto | exact Hxid].
           ++ intros y Hy Hid. apply elem_of_app in Hy as [Hy | Hy]; [auto|].
              apply list_elem_of_singleton in Hy. subst y. exact Hproc.
      * intros a c ta tc id Ha Hc Hla Hlc.
        destruct (Hlook _ _ Ha) as [[-> ->] | [Hna Ha']];
          destruct (Hlook _ _ Hc) as [[-> ->] | [Hnc Hc']].
        -- reflexivity.
        -- exfalso. cbn in Hla. rewrite Hlive in Hla. injection Hla as <-.
           destruct (Hwait _ _ _ Hc' Hlc) as [(x & Hx & Hxid) _]. exact (Hnew x Hx Hxid).
        -- exfalso. cbn in Hlc. rewrite Hlive in Hlc. injection Hlc as <-.
           destruct (Hwait _ _ _ Ha' Hla) as [(x & Hx & Hxid) _]. exact (Hnew x Hx Hxid).
        -- exact (Hown _ _ _ _ _ Ha' Hc' Hla Hlc).
    + (* the run finalizes the row it holds *)
      destruct Hinv as (Hnd & Hwait & Hown).
      set (g := fun r => if decide (tx_id r = id)
                         then set_bank_response (now w) d r else r).
      assert (Hkeep : forall x, tx_id x <> id -> g x = x).
      { intros x Hx. unfold g. destruct (decide _); [contradiction | reflexivity]. }
      assert (Hids : tx_id <$> (g <$> transactions w) = tx_id <$> transactions w).
      { rewrite <- list_fmap_compose. apply list_fmap_ext. intros k x _. cbn.
        apply set_bank_response_id. }
      split.
      * unfold ledger_inv. cbn [transactions tasks]. split; [|split].
        -- rewrite Hids. exact Hnd.
        -- intros j tj id' Hj Hl. destruct (Hlook _ _ Hj) as [[-> ->] | [Hne Hj']].
           { cbn in Hl. rewrite Hlive in Hl. discriminate. }
           assert (Hdiff : id' <> id).
           { intros ->. apply Hne. exact (Hown _ _ _ _ _ Hj' Hi Hl Hheld). }
           destruct (Hwait _ _ _ Hj' Hl) as [(x & Hx & Hxid) Hall]. split.
           ++ exists x. split; [|exact Hxid].
              apply list_elem_of_fmap. exists x. split; [|exact Hx].
              symmetry. apply Hkeep. congruence.
           ++ intros y Hy Hid. apply list_elem_of_fmap in Hy as (x0 & -> & Hx0).
              unfold g in Hid. rewrite set_bank_response_id in Hid.
              rewrite Hkeep by congruence. auto.
        -- intros a c ta tc id' Ha Hc Hla Hlc.
           destruct (Hlook _ _ Ha) as [[-> ->] | [Hna Ha']].
           { cbn in Hla. rewrite Hlive in Hla. discriminate. }
           destruct (Hlook _ _ Hc) as [[-> ->] | [Hnc Hc']].
           { cbn in Hlc. rewrite Hlive in Hlc. discriminate. }
           exact (Hown _ _ _ _ _ Ha' Hc' Hla Hlc).
      * intros x Hx Hterm. cbn [transactions].
        apply list_elem_of_fmap. exists x. split; [|exact Hx].
        symmetry. apply Hkeep. intros Hid.
        destruct (Hwait _ _ _ Hi Hheld) as [_ Hall].
        rewrite (Hall x Hx Hid) in Hterm. discriminate.
Qed.

Lemma init_ledger_inv t0 : ledger_inv (init t0).
Proof.
  unfold ledger_inv, init. cbn. split; [constructor|].
  split; intros; discriminate.
Qed.

Lemma run_ledger rt evs : forall w,
  ledger_inv w ->
  ledger_inv (run rt w evs)
  /\ forall t, t ∈ transactions w -> terminal (tx_status t) = true ->
       t ∈ transactions (run rt w evs).
Proof.
  induction evs as [|ev evs IH]; intros w Hinv; [auto|].
  destruct (step_ledger rt w ev Hinv) as [Hinv' Hkeep].
  destruct (IH _ Hinv') as [Hinv'' Hkeep'].
  split; [exact Hinv''|].
  intros t Ht Hterm. apply Hkeep', Hterm. apply Hkeep; assumption.
Qed.

(** C9. Take any world the server reaches from the empty one and any
    continuation from there, through any interleaving of link management,
    clock ticks and redemption segments.  A transaction that is [completed],
    [failed] or [cancelled] in the first world is still in the ledger
    afterwards, unchanged, and it is the only row with its identifier: its
    status never changes again. *)
Theorem terminal_status_is_final rt t0 evs evs' t :
  let w := run rt (init t0) evs in
  let w' := run rt w evs' in
  t ∈ transactions w ->
  terminal (tx_status t) = true ->
  t ∈ transactions w'
  /\ forall t', t' ∈ transactions w' -> tx_id t' = tx_id t -> tx_status t' = tx_status t.
Proof.
  intros w w' Ht Hterm.
  destruct (run_ledger rt evs (init t0) (init_ledger_inv t0)) as [Hinv _].
  destruct (run_ledger rt evs' w Hinv) as [(Hnd & _ & _) Hkeep].
  split; [apply Hkeep; assumption|].
  intros t' Ht' Hid.
  rewrite (NoDup_fmap_same_key tx_id (transactions w') t' t Hnd Ht'
             (Hkeep t Ht Hterm) Hid).
  reflexivity.
Qed.

(** C9, at the first row of the race and what follows it. *)
Lemma terminal_status_is_final_witness :
  Demo.tx_a ∈
    transactions
      (run Demo.rt
         (run Demo.rt (init Demo.t0)
            (CreateLink "merchant" Demo.once Demo.once_env :: Demo.race))
         Demo.aftermath).
Proof.
  refine (proj1 (terminal_status_is_final Demo.rt Demo.t0
                   (CreateLink "merchant" Demo.once Demo.once_env :: Demo.race)
                   Demo.aftermath Demo.tx_a _ _)).
  - vm_compute. left.
  - reflexivity.
Defined.

(* ================================================================= *)
(** * Further properties of the routes *)

(** ** What a move of the server can do to the link table *)

Lemma create_link_links rt nw user b e links :
  fst (create_link rt nw user b e links) = links
  \/ exists pl, fst (create_link rt nw user b e links) = (links ++ [pl])%list
       /\ pl = new_payment_link rt nw user b e
       /\ validate_create rt b = []
       /\ payment_link_row_error pl = None
       /\ Forall (fun r => pl_id r <> pl_id pl /\ pl_link_id r <> pl_link_id pl) links.
Proof.
  unfold create_link. destruct (validate_create rt b) eqn:Hval; [|left; reflexivity].
  unfold insert_payment_link. destruct (create_fault e); [left; reflexivity|].
  destruct (payment_link_row_error _) eqn:Hrow; [left; reflexivity|].
  case_bool_decide as Hdup; [left; reflexivity|].
  right. eexists. split; [reflexivity|]. repeat split; try assumption.
  apply Forall_forall. intros r Hr. split; intros Heq; apply Hdup, Exists_exists;
    exists r; auto.
Qed.

Lemma update_link_links nw user l b fault links :
  fst (update_link nw user l b fault links) = links
  \/ exists d a, update_link_metadata false nw l user d a links
                 = Ok (fst (update_link nw user l b fault links)).
Proof.
  unfold update_link. destruct (validate_update b); [|left; reflexivity].
  destruct fault; [left; reflexivity|]. destruct (filter _ _); [left; reflexivity|].
  destruct (new_description b) as [d|], (new_isActive b) as [| |a]; cbn [fst];
    try (left; reflexivity).
  all: match goal with
       | |- context [update_link_metadata ?f ?n ?k ?u ?x ?y ?ls] =>
           destruct (update_link_metadata f n k u x y ls) as [links2|err] eqn:Hup
       end; [right; eauto | left; reflexivity].
Qed.

Lemma step_links rt w ev :
  payment_links (step rt w ev) = payment_links w
  \/ (exists pl, payment_links (step rt w ev) = (payment_links w ++ [pl])%list
        /\ payment_link_row_error pl = None
        /\ max_uses_positive pl
        /\ pl_current_uses pl = 0
        /\ Forall (fun r => pl_id r <> pl_id pl /\ pl_link_id r <> pl_link_id pl)
             (payment_links w))
  \/ (exists id, update_link_uses false (now w) id (payment_links w)
               = Ok (payment_links (step rt w ev)))
  \/ (exists l u d a, update_link_metadata false (now w) l u d a (payment_links w)
                    = Ok (payment_links (step rt w ev))).
Proof.
  destruct ev as [dt|user b e|user l b fault|l b e|i]; cbn [step payment_links]; auto.
  - destruct (create_link_links rt (now w) user b e (payment_links w))
      as [-> | (pl & -> & -> & Hval & Hrow & Hfresh)]; [auto|].
    right. left. eexists. split; [reflexivity|]. repeat split; try assumption.
    intros m Hm. cbn in Hm. unfold validate_create in Hval.
    destruct (maxUses b) as [| |n]; try discriminate. injection Hm as <-.
    repeat (apply app_eq_nil in Hval as [? Hval]).
    unfold check_field in Hval. destruct (Z.leb_spec 1 n); [assumption | discriminate].
  - destruct (update_link_links (now w) user l b fault (payment_links w))
      as [-> | (d & a & Hup)]; [auto|]. do 3 right. eauto.
  - destruct (tasks w !! i) as [t|]; [|auto].
    destruct (segment rt (now w) (payment_links w) (transactions w) t)
      as [[links' txs'] p] eqn:Hseg. cbn [payment_links].
    destruct (segment_links _ _ _ _ _ _ _ _ Hseg) as [-> | (id & Hup)]; [auto|].
    right. right. left. exists id.
    unfold update_link_uses in *. destruct (uses_fault (env t)); [discriminate | exact Hup].
Qed.

Lemma increment_uses_same_link nw pl : same_link pl (increment_uses nw pl).
Proof. unfold same_link. cbn. repeat split; lia. Qed.

Lemma set_metadata_same_link nw d a pl : same_link pl (set_metadata nw d a pl).
Proof. unfold same_link. cbn. repeat split; lia. Qed.

Lemma same_link_refl pl : same_link pl pl.
Proof. unfold same_link. repeat split; lia. Qed.

Lemma same_link_trans a b c : same_link a b -> same_link b c -> same_link a c.
Proof. unfold same_link. intuition (try congruence; try lia). Qed.

Lemma db_update_same_link (P : PaymentLink -> Prop) `{!forall x, Decision (P x)}
    f chk links links' pl :
  (forall r, same_link r (f r)) ->
  db_update P f chk links = Ok links' ->
  pl ∈ links -> exists pl', pl' ∈ links' /\ same_link pl pl'.
Proof.
  intros Hf Hup Hin. rewrite (db_update_Ok _ _ _ _ _ Hup).
  eexists. split; [apply list_elem_of_fmap_2, Hin|]. cbn.
  destruct (decide (P pl)); [apply Hf | apply same_link_refl].
Qed.

Lemma step_same_link rt w ev pl :
  pl ∈ payment_links w ->
  exists pl', pl' ∈ payment_links (step rt w ev) /\ same_link pl pl'.
Proof.
  intros Hin.
  destruct (step_links rt w ev)
    as [-> | [(x & -> & _) | [(id & Hup) | (l & u & d & a & Hup)]]].
  - exists pl. split; [exact Hin | apply same_link_refl].
  - exists pl. split; [apply elem_of_app; auto | apply same_link_refl].
  - unfold update_link_uses in Hup.
    exact (db_update_same_link _ _ _ _ _ _ (increment_uses_same_link _) Hup Hin).
  - unfold update_link_metadata in Hup.
    exact (db_update_same_link _ _ _ _ _ _ (set_metadata_same_link _ _ _) Hup Hin).
Qed.

(** X3. Links are never deleted and keep their identity: whatever the server
    does after a link is stored, through any interleaving, the table still
    holds a row with the same id, owner, token, amount, currency, expiry, cap
    and creation time, and its counter has not gone down. *)
Theorem links_keep_their_identity rt w evs pl :
  pl ∈ payment_links w ->
  exists pl', pl' ∈ payment_links (run rt w evs) /\ same_link pl pl'.
Proof.
  revert w pl. induction evs as [|ev evs IH]; intros w pl Hin.
  - exists pl. split; [exact Hin | apply same_link_refl].
  - destruct (step_same_link rt w ev pl Hin) as (pl1 & Hin1 & Hs1).
    destruct (IH (step rt w ev) pl1 Hin1) as (pl2 & Hin2 & Hs2).
    exists pl2. split; [exact Hin2 | exact (same_link_trans _ _ _ Hs1 Hs2)].
Qed.

(** X3, at the single-use link and the race run on it. *)
Lemma links_keep_their_identity_witness :
  exists pl', pl' ∈ payment_links (run Demo.rt Demo.shop Demo.race)
    /\ same_link (new_payment_link Demo.rt Demo.t0 "merchant" Demo.once Demo.once_env) pl'.
Proof.
  apply (links_keep_their_identity Demo.rt Demo.shop Demo.race).
  vm_compute. left.
Defined.

(** ** Keys *)

Lemma db_update_keeps_column {A K : Type} (P : A -> Prop) `{!forall x, Decision (P x)}
    (f : A -> A) chk (key : A -> K) rows rows' :
  (forall r, key (f r) = key r) ->
  db_update P f chk rows = Ok rows' ->
  key <$> rows' = key <$> rows.
Proof.
  intros Hkey Hup. rewrite (db_update_Ok _ _ _ _ _ Hup), <- list_fmap_compose.
  apply list_fmap_ext. intros i r _. cbn. destruct (decide (P r)); auto.
Qed.

Lemma step_keys rt w ev : keys_inv w -> keys_inv (step rt w ev).
Proof.
  intros [Hid Htok]. unfold keys_inv.
  destruct (step_links rt w ev)
    as [-> | [(x & -> & _ & _ & _ & Hfresh) | [(id & Hup) | (l & u & d & a & Hup)]]].
  - auto.
  - rewrite Forall_forall in Hfresh. rewrite !fmap_app. split.
    + apply NoDup_app. split; [exact Hid|]. split; [|apply NoDup_singleton].
      intros k Hk Hk'. apply list_elem_of_singleton in Hk'. subst k.
      apply list_elem_of_fmap in Hk as (r & Hkr & Hr).
      exact (proj1 (Hfresh r Hr) (eq_sym Hkr)).
    + apply NoDup_app. split; [exact Htok|]. split; [|apply NoDup_singleton].
      intros k Hk Hk'. apply list_elem_of_singleton in Hk'. subst k.
      apply list_elem_of_fmap in Hk as (r & Hkr & Hr).
      exact (proj2 (Hfresh r Hr) (eq_sym Hkr)).
  - unfold update_link_uses in Hup.
    rewrite (db_update_keeps_column _ (increment_uses (now w)) _ pl_id _ _
               (fun _ => eq_refl) Hup).
    rewrite (db_update_keeps_column _ (increment_uses (now w)) _ pl_link_id _ _
               (fun _ => eq_refl) Hup). auto.
  - unfold update_link_metadata in Hup.
    rewrite (db_update_keeps_column _ (set_metadata (now w) d a) _ pl_id _ _
               (fun _ => eq_refl) Hup).
    rewrite (db_update_keeps_column _ (set_metadata (now w) d a) _ pl_link_id _ _
               (fun _ => eq_refl) Hup). auto.
Qed.

Lemma keys_reachable rt w : reachable rt w -> keys_inv w.
Proof.
  intros (t0 & evs & ->). apply (run_invariant rt keys_inv).
  - intros w ev. apply step_keys.
  - split; constructor.
Qed.

Lemma NoDup_key_filter {A K : Type} `{!EqDecision K} (key : A -> K) (k : K) (l : list A) :
  NoDup (key <$> l) -> (length (filter (fun r => key r = k) l) <= 1)%nat.
Proof.
  induction l as [|x l IH]; intros Hnd; [cbn; lia|].
  cbn in Hnd. apply NoDup_cons in Hnd as [Hx Hnd].
  rewrite filter_cons. destruct (decide (key x = k)) as [<-|_]; [|auto].
  cbn. assert (Hnone : filter (fun r => key r = key x) l = []).
  { destruct (filter _ l) as [|y ys] eqn:Hf; [reflexivity|].
    destruct (filter_head_elem _ _ _ _ Hf) as [Hy Hky].
    exfalso. apply Hx. rewrite <- Hky. apply list_elem_of_fmap_2, Hy. }
  rewrite Hnone. cbn. lia.
Qed.

(** X2. In every world the server can reach, no two links share a primary
    key or a token, so the lookup of a token by the redemption handler never
    returns more than one row. *)
Theorem token_lookup_is_unambiguous rt w l :
  reachable rt w ->
  NoDup (pl_id <$> payment_links w)
  /\ NoDup (pl_link_id <$> payment_links w)
  /\ (length (filter (fun r => pl_link_id r = l) (payment_links w)) <= 1)%nat.
Proof.
  intros Hreach. destruct (keys_reachable rt w Hreach) as [Hid Htok].
  split; [exact Hid|]. split; [exact Htok|].
  apply (NoDup_key_filter pl_link_id l), Htok.
Qed.

(** X2, at the world of the race. *)
Lemma token_lookup_is_unambiguous_witness :
  (length (filter (fun r => pl_link_id r = Demo.token) (payment_links Demo.raced)) <= 1)%nat.
Proof.
  refine (proj2 (proj2 (token_lookup_is_unambiguous Demo.rt Demo.raced Demo.token _))).
  exists Demo.t0, (CreateLink "merchant" Demo.once Demo.once_env :: Demo.race).
  reflexivity.
Defined.

(** ** Where a transaction takes its amount from *)

Lemma priced_by_later links links' id a c :
  (forall pl, pl ∈ links -> exists pl', pl' ∈ links' /\ same_link pl pl') ->
  priced_by links id a c -> priced_by links' id a c.
Proof.
  intros Hkeep (pl & Hin & Hid & Ha & Hc).
  destruct (Hkeep pl Hin) as (pl' & Hin' & Hs). exists pl'.
  unfold same_link in Hs. intuition congruence.
Qed.

(** The row a segment inserts is built from the head of the rows the run has
    read, and the rows a run holds after its SELECT are rows of the table. *)
Lemma segment_sources rt nw links txs t links' txs' p :
  segment rt nw links txs t = (links', txs', p) ->
  (txs' = txs
   \/ (exists pl rest, pc t = AfterSelect (pl :: rest)
         /\ txs' = (txs ++ [new_transaction rt nw (uuid (env t)) pl (body t)])%list)
   \/ (exists id d, txs' = (fun r => if decide (tx_id r = id)
                                     then set_bank_response nw d r else r) <$> txs))
  /\ (forall rows, p = AfterSelect rows ->
        links' = links /\ forall r, r ∈ rows -> r ∈ links).
Proof.
  unfold segment. intros Hseg.
  destruct (pc t) as [|rows|pl id created|pl id created d|pl id created d|r] eqn:Hpc.
  - destruct (validate_process rt (body t)).
    2:{ injection Hseg as <- <- <-. split; [auto | intros ? [=]]. }
    unfold select_link_by_link_id in Hseg. destruct (select_fault (env t)).
    { injection Hseg as <- <- <-. split; [auto | intros ? [=]]. }
    injection Hseg as <- <- <-. split; [auto|].
    intros rows [= <-]. split; [reflexivity|].
    intros r Hr. apply list_elem_of_filter in Hr. tauto.
  - destruct rows as [|paymentLink rest].
    { injection Hseg as <- <- <-. split; [auto | intros ? [=]]. }
    destruct (link_precheck nw paymentLink).
    { injection Hseg as <- <- <-. split; [auto | intros ? [=]]. }
    destruct (card_expired _ _ _ _).
    { injection Hseg as <- <- <-. split; [auto | intros ? [=]]. }
    destruct (insert_transaction _ _ _ _) as [txs1|err] eqn:Hins.
    2:{ injection Hseg as <- <- <-. split; [auto | intros ? [=]]. }
    injection Hseg as <- <- <-.
    destruct (insert_transaction_Ok _ _ _ _ _ Hins) as (-> & _ & _).
    split; [|intros ? [=]]. right. left. eauto.
  - injection Hseg as <- <- <-. split; [auto | intros ? [=]].
  - destruct (update_transaction _ _ _ _ _) as [txs2|err] eqn:Hup.
    2:{ injection Hseg as <- <- <-. split; [auto | intros ? [=]]. }
    unfold update_transaction in Hup. destruct (update_fault (env t)); [discriminate|].
    apply db_update_Ok in Hup. subst txs2.
    destruct (status d); injection Hseg as <- <- <-;
      (split; [right; right; eauto | intros ? [=]]).
  - destruct (update_link_uses _ _ _ _); injection Hseg as <- <- <-;
      (split; [auto | intros ? [=]]).
  - injection Hseg as <- <- <-. split; [auto | intros ? [=]].
Qed.

Lemma step_price rt w ev : price_inv w -> price_inv (step rt w ev).
Proof.
  intros [Htx Hrows].
  assert (Hkeep : forall pl, pl ∈ payment_links w ->
            exists pl', pl' ∈ payment_links (step rt w ev) /\ same_link pl pl')
    by (intros pl; apply step_same_link).
  assert (Hlater : forall id a c, priced_by (payment_links w) id a c ->
            priced_by (payment_links (step rt w ev)) id a c)
    by (intros id a c; apply priced_by_later, Hkeep).
  clear Hkeep.
  destruct ev as [dt|user b e|user l b fault|l b e|i].
  1-3: split; [intros t Ht; apply Hlater, Htx, Ht
              | intros j t rows r Hj Hpc Hr; apply Hlater; exact (Hrows j t rows r Hj Hpc Hr)].
  - split; [intros t Ht; apply Hlater, Htx, Ht|].
    intros j t rows r Hj Hpc Hr. cbn [step tasks] in Hj.
    apply lookup_snoc_Some in Hj as [[_ Hj] | [_ <-]]; [|discriminate].
    apply Hlater. exact (Hrows j t rows r Hj Hpc Hr).
  - revert Hlater. cbn [step].
    destruct (tasks w !! i) as [t|] eqn:Hi; [|intros _; split; assumption].
    destruct (segment rt (now w) (payment_links w) (transactions w) t)
      as [[links' txs'] p] eqn:Hseg.
    cbn [payment_links transactions tasks]. intros Hlater.
    destruct (segment_sources _ _ _ _ _ _ _ _ Hseg) as [Htxs Hsel].
    split.
    + intros x Hx.
      destruct Htxs as [-> | [(pl & rest & Hpc & ->) | (id & d & ->)]].
      * apply Hlater, Htx, Hx.
      * apply elem_of_app in Hx as [Hx | Hx]; [apply Hlater, Htx, Hx|].
        apply list_elem_of_singleton in Hx. subst x. cbn.
        apply Hlater. apply (Hrows i t (pl :: rest) pl Hi Hpc). left.
      * apply list_elem_of_fmap in Hx as (x0 & -> & Hx0).
        assert (Hsame : tx_payment_link_id (if decide (tx_id x0 = id)
                          then set_bank_response (now w) d x0 else x0)
                        = tx_payment_link_id x0
                        /\ tx_amount (if decide (tx_id x0 = id)
                             then set_bank_response (now w) d x0 else x0) = tx_amount x0
                        /\ tx_currency (if decide (tx_id x0 = id)
                             then set_bank_response (now w) d x0 else x0) = tx_currency x0)
          by (destruct (decide _); auto).
        destruct Hsame as (-> & -> & ->). apply Hlater, Htx, Hx0.
    + intros j tj rows r Hj Hpc Hr.
      apply list_lookup_insert_Some in Hj as [(-> & <- & _) | [Hne Hj]].
      * cbn in Hpc. destruct (Hsel rows Hpc) as [-> Hsub].
        exists r. auto using Hsub.
      * apply Hlater. exact (Hrows j tj rows r Hj Hpc Hr).
Qed.

Lemma price_reachable rt w : reachable rt w -> price_inv w.
Proof.
  intros (t0 & evs & ->). apply (run_invariant rt price_inv).
  - intros w ev. apply step_price.
  - split; [intros t Ht; inversion Ht | intros; discriminate].
Qed.

(** X4. Every transaction in any world the server can reach belongs to a
    stored link and carries that link's amount and currency: the handler
    copies both from the link row and nothing else ever writes them. *)
Theorem transaction_is_priced_by_its_link rt w t :
  reachable rt w ->
  t ∈ transactions w ->
  exists pl, pl ∈ payment_links w
    /\ pl_id pl = tx_payment_link_id t
    /\ pl_amount pl = tx_amount t
    /\ pl_currency pl = tx_currency t.
Proof.
  intros Hreach Ht. exact (proj1 (price_reachable rt w Hreach) t Ht).
Qed.

(** X4, at the first transaction of the race. *)
Lemma transaction_is_priced_by_its_link_witness :
  exists pl, pl ∈ payment_links Demo.raced
    /\ pl_id pl = tx_payment_link_id Demo.tx_a
    /\ pl_amount pl = tx_amount Demo.tx_a
    /\ pl_currency pl = tx_currency Demo.tx_a.
Proof.
  apply (transaction_is_priced_by_its_link Demo.rt Demo.raced Demo.tx_a).
  - exists Demo.t0, (CreateLink "merchant" Demo.once Demo.once_env :: Demo.race).
    reflexivity.
  - vm_compute. left.
Defined.

(** ** The aggregates of the link listing *)

Module Aggregates.
Import QArith.
Local Open Scope Q_scope.

Lemma total_collected_uniform pl txs :
  (forall t, t ∈ txs -> tx_payment_link_id t = pl_id pl -> tx_amount t = pl_amount pl) ->
  total_collected pl txs
  == inject_Z (Z.of_nat (length (completed_of (pl_id pl) txs))) * pl_amount pl.
Proof.
  unfold total_collected, completed_of.
  induction txs as [|t txs IH]; intros Hsame.
  - cbn. unfold Qzero. ring.
  - assert (IH' := IH (fun x Hx => Hsame x (list_elem_of_further _ _ _ Hx))).
    rewrite !filter_cons.
    destruct (decide (tx_payment_link_id t = pl_id pl)) as [Hl|Hl].
    + cbn [foldr]. rewrite IH'.
      destruct (decide (tx_status t = completed)) as [Hc|Hc].
      * rewrite decide_True by auto. cbn [length].
        rewrite Nat2Z.inj_succ. unfold Z.succ. rewrite inject_Z_plus.
        rewrite (Hsame t (list_elem_of_here _ _) Hl). ring.
      * rewrite decide_False by tauto. unfold Qzero. ring.
    + rewrite decide_False by tauto. exact IH'.
Qed.

End Aggregates.

(** X5. In any world the server can reach, the [total_collected] shown for a
    link in the listing is the link's amount times the number of its
    [completed] transactions. *)
Theorem total_collected_is_amount_times_completed rt w pl :
  reachable rt w ->
  pl ∈ payment_links w ->
  QArith_base.Qeq
    (total_collected pl (transactions w))
    (QArith_base.Qmult
       (QArith_base.inject_Z
          (Z.of_nat (length (completed_of (pl_id pl) (transactions w)))))
       (pl_amount pl)).
Proof.
  intros Hreach Hpl. apply Aggregates.total_collected_uniform.
  intros t Ht Hid.
  destruct (proj1 (price_reachable rt w Hreach) t Ht) as (pl0 & Hin0 & Hid0 & Ha & _).
  destruct (keys_reachable rt w Hreach) as [Hnd _].
  assert (pl0 = pl) as ->.
  { apply (NoDup_fmap_same_key pl_id (payment_links w)); [assumption..|congruence]. }
  symmetry. exact Ha.
Qed.

(** X5, at the single-use link after the race: two completed payments of 10. *)
Lemma total_collected_is_amount_times_completed_witness :
  QArith_base.Qeq
    (total_collected (increment_uses Demo.t0
                        (new_payment_link Demo.rt Demo.t0 "merchant" Demo.once Demo.once_env))
       (transactions Demo.raced))
    (QArith_base.Qmult (QArith_base.inject_Z 2) Demo.ten).
Proof.
  refine (total_collected_is_amount_times_completed Demo.rt Demo.raced _ _ _).
  - exists Demo.t0, (CreateLink "merchant" Demo.once Demo.once_env :: Demo.race).
    reflexivity.
  - vm_compute. left.
Defined.


(** ** A redemption served on its own, outcome by outcome *)

Lemma process_outcomes rt w l b e :
  let w' := process rt w l b e in
  (payment_links w' = payment_links w /\ transactions w' = transactions w
   /\ exists r, response_of w w' = Some r /\ refusal r)
  \/ exists pl rest,
       filter (fun x => pl_link_id x = l) (payment_links w) = pl :: rest
       /\ link_precheck (now w) pl = None
       /\ let t0 := new_transaction rt (now w) (uuid e) pl b in
          let d := snd (simulateBankAPI (jitter e) (payment_data pl b)) in
          let fin := set_bank_response (now w) d t0 in
          let receipt := receipt_of (now w) pl (uuid e) (now w) d in
          (payment_links w' = payment_links w
           /\ transactions w' = (transactions w ++ [t0])%list
           /\ exists err, response_of w w' = Some (Thrown err))
          \/ (payment_links w' = payment_links w
              /\ transactions w' = (transactions w ++ [fin])%list
              /\ status d <> completed
              /\ response_of w w' = Some (Processed receipt))
          \/ (payment_links w' = payment_links w
              /\ transactions w' = (transactions w ++ [fin])%list
              /\ status d = completed
              /\ exists err,
                   update_link_uses (uses_fault e) (now w) (pl_id pl) (payment_links w)
                   = Err err
                   /\ response_of w w' = Some (Thrown err))
          \/ (update_link_uses (uses_fault e) (now w) (pl_id pl) (payment_links w)
              = Ok (payment_links w')
              /\ transactions w' = (transactions w ++ [fin])%list
              /\ status d = completed
              /\ response_of w w' = Some (Processed receipt)).
Proof.
  intros w'. subst w'.
  destruct (segments_cases rt (now w) (payment_links w) (transactions w) l b e)
    as [(r & Hrefusal & Hstop) | (pl & rest & txs1 & Hval & Hsel & Hrows & Hpre & Hcard & Hins)].
  { destruct (response_of_process _ _ _ _ _ _ _ _ r Hstop eq_refl) as (Hr & Hl & Ht).
    left. eauto. }
  right. exists pl, rest. split; [exact Hrows|]. split; [exact Hpre|].
  pose proof (segments_closed_form _ _ _ _ _ _ _ pl rest txs1 Hval Hsel Hrows Hpre Hcard Hins)
    as Hrun. cbv zeta in Hrun |- *.
  destruct (update_fault e).
  { destruct (response_of_process _ _ _ _ _ _ _ _ _ Hrun eq_refl) as (Hr & Hl & Ht).
    left. eauto. }
  destruct (transaction_row_error _).
  { destruct (response_of_process _ _ _ _ _ _ _ _ _ Hrun eq_refl) as (Hr & Hl & Ht).
    left. eauto. }
  destruct (status _) eqn:Hst.
  3:{ destruct (update_link_uses _ _ _ _) as [links2|err] eqn:Hup;
        destruct (response_of_process _ _ _ _ _ _ _ _ _ Hrun eq_refl) as (Hr & Hl & Ht).
      - do 3 right. rewrite Hl. auto.
      - right. right. left. eauto 10. }
  all: destruct (response_of_process _ _ _ _ _ _ _ _ _ Hrun eq_refl) as (Hr & Hl & Ht);
    right; left; repeat split; try assumption; discriminate.
Qed.

(** X6. A redemption that is answered with a [completed] receipt has taken
    exactly one use of exactly one link: the link table afterwards is the
    table before with the counter of the redeemed link raised by one (and its
    [updated_at] refreshed), every other link being untouched; the link had a
    free use at that moment; and the ledger has gained one row, [completed],
    with the identifier drawn by the run and the link's amount and currency. *)
Theorem completed_redemption_takes_one_use rt w l b e r :
  let w' := process rt w l b e in
  response_of w w' = Some (Processed r) ->
  r_status r = completed ->
  exists pl, pl ∈ payment_links w /\ pl_link_id pl = l
    /\ payment_links w'
       = (fun x => if decide (pl_id x = pl_id pl) then increment_uses (now w) x else x)
         <$> payment_links w
    /\ (forall m, pl_max_uses pl = Some m -> pl_current_uses pl < m)
    /\ exists t, transactions w' = (transactions w ++ [t])%list
         /\ tx_id t = uuid e
         /\ tx_status t = completed
         /\ tx_payment_link_id t = pl_id pl
         /\ tx_amount t = pl_amount pl
         /\ tx_currency t = pl_currency pl.
Proof.
  intros w' Hresp Hdone. subst w'.
  destruct (process_outcomes rt w l b e)
    as [(_ & _ & r0 & Hr0 & Href)
       | (pl & rest & Hrows & Hpre &
          [(_ & _ & err & Hr0) | [(_ & _ & Hst & Hr0)
          | [(_ & _ & _ & err & _ & Hr0) | (Hup & Htx & Hst & Hr0)]]])];
    rewrite Hresp in Hr0.
  - injection Hr0 as <-. destruct Href.
  - discriminate.
  - injection Hr0 as ->. cbn in Hdone. contradiction.
  - discriminate.
  - destruct (filter_head_elem _ _ _ _ Hrows) as [Hin Hl].
    exists pl. split; [exact Hin|]. split; [exact Hl|]. split; [|split].
    + unfold update_link_uses in Hup. destruct (uses_fault e); [discriminate|].
      exact (db_update_Ok _ _ _ _ _ Hup).
    + intros m Hm. exact (update_link_uses_guarded _ _ _ _ _ pl m Hup Hin eq_refl Hm).
    + eexists. split; [exact Htx|]. cbn. auto.
Qed.

(** X6, at one approved redemption of the single-use link. *)
Lemma completed_redemption_takes_one_use_witness :
  exists pl, pl ∈ payment_links Demo.shop /\ pl_link_id pl = Demo.token
    /\ payment_links (process Demo.rt Demo.shop Demo.token Demo.good_card (Demo.quiet "tx-1"))
       = (fun x => if decide (pl_id x = pl_id pl) then increment_uses Demo.t0 x else x)
         <$> payment_links Demo.shop.
Proof.
  destruct (completed_redemption_takes_one_use Demo.rt Demo.shop Demo.token Demo.good_card
              (Demo.quiet "tx-1")
              (receipt_of Demo.t0
                 (new_payment_link Demo.rt Demo.t0 "merchant" Demo.once Demo.once_env)
                 "tx-1" Demo.t0 approved))
    as (pl & Hin & Hl & Hlinks & _).
  - vm_compute. reflexivity.
  - reflexivity.
  - exists pl. auto.
Defined.

(** ** Redemptions served one at a time *)

Lemma completed_of_snoc id txs t :
  completed_of id (txs ++ [t])
  = (completed_of id txs
     ++ if decide (tx_payment_link_id t = id /\ tx_status t = completed) then [t] else [])%list.
Proof.
  unfold completed_of. rewrite filter_app, filter_cons, filter_nil. reflexivity.
Qed.

Lemma serial_inv_init t0 : serial_inv (init t0).
Proof.
  unfold serial_inv, init. cbn. repeat split; try constructor.
  - intros t Ht. inversion Ht.
  - intros pl m Hpl. inversion Hpl.
Qed.

(** A move that leaves the ledger alone and only appends a checked, unused
    link with fresh keys, or updates rows in place keeping id, cap and
    counter, keeps the invariant. *)
Lemma serial_inv_links w nw links ts :
  serial_inv w ->
  (links = payment_links w
   \/ (exists pl, links = (payment_links w ++ [pl])%list
         /\ payment_link_row_error pl = None /\ max_uses_positive pl
         /\ pl_current_uses pl = 0
         /\ Forall (fun r => pl_id r <> pl_id pl /\ pl_link_id r <> pl_link_id pl)
              (payment_links w))
   \/ (exists l u d a, update_link_metadata false (now w) l u d a (payment_links w)
                     = Ok links)) ->
  serial_inv {| now := nw; payment_links := links; transactions := transactions w;
                tasks := ts |}.
Proof.
  intros (Hrow & Hpos & Hnd & Hfk & Hcount) Hlinks. unfold serial_inv. cbn [payment_links transactions].
  destruct Hlinks as [-> | [(pl & -> & Hrow1 & Hpos1 & Hzero & Hfresh)
                           | (l & u & d & a & Hup)]].
  - auto 10.
  - rewrite Forall_forall in Hfresh.
    split; [apply Forall_app; split; [exact Hrow | apply Forall_singleton, Hrow1]|].
    split; [apply Forall_app; split; [exact Hpos | apply Forall_singleton, Hpos1]|].
    split; [|split].
    + rewrite fmap_app. apply NoDup_app. split; [exact Hnd|].
      split; [|apply NoDup_singleton].
      intros k Hk Hk'. apply list_elem_of_singleton in Hk'. subst k.
      apply list_elem_of_fmap in Hk as (r & Hkr & Hr).
      exact (proj1 (Hfresh r Hr) (eq_sym Hkr)).
    + intros t Ht. destruct (Hfk t Ht) as (x & Hx & Hid).
      exists x. split; [apply elem_of_app; auto | exact Hid].
    + intros x m Hx Hm. apply elem_of_app in Hx as [Hx | Hx]; [exact (Hcount x m Hx Hm)|].
      apply list_elem_of_singleton in Hx. subst x. rewrite Hzero.
      destruct (completed_of (pl_id pl) (transactions w)) as [|t ts'] eqn:Hc; [reflexivity|].
      exfalso. assert (Ht : t ∈ completed_of (pl_id pl) (transactions w))
        by (rewrite Hc; left).
      apply list_elem_of_filter in Ht as [[Hid _] Ht].
      destruct (Hfk t Ht) as (y & Hy & Hyid).
      apply (proj1 (Hfresh y Hy)). congruence.
  - unfold update_link_metadata in Hup.
    split; [exact (db_update_preserves _ _ _ _ _ _ (fun r H => H) Hup Hrow)|].
    split; [refine (db_update_Ok_all _ _ _ _ _ _ _ Hup Hpos);
            intros r Hr m Hm; exact (Hr m Hm)|].
    split; [rewrite (db_update_keeps_column _ (set_metadata (now w) d a) _ pl_id _ _
                       (fun _ => eq_refl) Hup); exact Hnd|].
    split.
    + intros t Ht. destruct (Hfk t Ht) as (x & Hx & Hid).
      destruct (db_update_same_link _ _ _ _ _ _ (set_metadata_same_link _ _ _) Hup Hx)
        as (x' & Hx' & Hs).
      exists x'. split; [exact Hx'|]. unfold same_link in Hs. intuition congruence.
    + intros x m Hx Hm. rewrite (db_update_Ok _ _ _ _ _ Hup) in Hx.
      apply list_elem_of_fmap in Hx as (x0 & -> & Hx0).
      destruct (decide _); [|exact (Hcount x0 m Hx0 Hm)]. cbn in *.
      exact (Hcount x0 m Hx0 Hm).
Qed.

Lemma increment_row_ok nw pl m :
  payment_link_row_error pl = None ->
  pl_max_uses pl = Some m -> pl_current_uses pl < m ->
  payment_link_row_error (increment_uses nw pl) = None.
Proof.
  unfold payment_link_row_error, check_uses_limit.
  cbn [increment_uses pl_link_id pl_currency pl_max_uses pl_current_uses pl_amount].
  intros Hrow Hm Hlt. rewrite Hm in *. cbn [from_option] in *.
  destruct (varchar_fits 50 (pl_link_id pl) && varchar_fits 3 (pl_currency pl));
    [|discriminate].
  destruct (int4_fits m && int4_fits (pl_current_uses pl)) eqn:Hint; [|discriminate].
  destruct (Qpositive (pl_amount pl)); [|discriminate].
  cbn [negb] in *.
  apply andb_true_iff in Hint as [Hm4 Hc4].
  assert (Hc4' : int4_fits (pl_current_uses pl + 1) = true).
  { unfold int4_fits in *. apply andb_true_iff in Hm4 as [_ Hhi], Hc4 as [Hlo _].
    apply Z.leb_le in Hhi, Hlo. apply andb_true_iff. split; apply Z.leb_le; lia. }
  rewrite Hm4, Hc4'. cbn [andb negb].
  destruct (Z.leb_spec (pl_current_uses pl + 1) m); [reflexivity | lia].
Qed.

Lemma precheck_free_use nw pl m :
  link_precheck nw pl = None -> max_uses_positive pl -> pl_max_uses pl = Some m ->
  pl_current_uses pl < m.
Proof.
  unfold link_precheck. intros Hpre Hpos Hm. specialize (Hpos m Hm).
  rewrite Hm in Hpre. cbn in Hpre.
  destruct (negb (pl_is_active pl)); [discriminate|].
  destruct (from_option _ false (pl_expires_at pl)); [discriminate|].
  destruct (Z.eqb_spec m 0); [lia|]. cbn in Hpre.
  destruct (Z.leb_spec m (pl_current_uses pl)); [discriminate | assumption].
Qed.

Lemma serve_serial_inv rt w q :
  counter_write_kept q -> serial_inv w -> serial_inv (serve rt w q).
Proof.
  intros Hkept Hinv. destruct q as [dt|user b e|user l b fault|l b e]; cbn [serve step].
  - apply (serial_inv_links w); auto.
  - apply (serial_inv_links w); [exact Hinv|].
    destruct (create_link_links rt (now w) user b e (payment_links w))
      as [-> | (pl & -> & -> & Hval & Hrow & Hfresh)]; [auto|].
    right. left. eexists. split; [reflexivity|]. repeat split; try assumption.
    intros m Hm. cbn in Hm. unfold validate_create in Hval.
    destruct (maxUses b) as [| |n]; try discriminate. injection Hm as <-.
    repeat (apply app_eq_nil in Hval as [? Hval]).
    unfold check_field in Hval. destruct (Z.leb_spec 1 n); [assumption | discriminate].
  - apply (serial_inv_links w); [exact Hinv|].
    destruct (update_link_links (now w) user l b fault (payment_links w))
      as [-> | (d & a & Hup)]; [auto|]. right. right. eauto.
  - cbn in Hkept.
    assert (Hshape : process rt w l b e
                     = {| now := now w; payment_links := payment_links (process rt w l b e);
                          transactions := transactions (process rt w l b e);
                          tasks := tasks (process rt w l b e) |}).
    { rewrite process_segments. destruct (segments _ _ _ _ _ _) as [[? ?] ?]. reflexivity. }
    rewrite Hshape.
    pose proof Hinv as (Hrow & Hpos & Hnd & Hfk & Hcount).
    destruct (process_outcomes rt w l b e)
      as [(-> & -> & _)
         | (pl & rest & Hrows & Hpre & Hcase)].
    { apply (serial_inv_links w); auto. }
    destruct (filter_head_elem _ _ _ _ Hrows) as [Hin Hl].
    assert (Hsole : forall x, x ∈ payment_links w -> pl_id x = pl_id pl -> x = pl).
    { intros x Hx Hid.
      exact (NoDup_fmap_same_key pl_id (payment_links w) x pl Hnd Hx Hin Hid). }
    assert (Hfree : forall m, pl_max_uses pl = Some m -> pl_current_uses pl < m).
    { intros m Hm. rewrite Forall_forall in Hpos.
      exact (precheck_free_use _ _ _ Hpre (Hpos pl Hin) Hm). }
    cbv zeta in Hcase.
    set (t0 := new_transaction rt (now w) (uuid e) pl b) in *.
    set (d := snd (simulateBankAPI (jitter e) (payment_data pl b))) in *.
    set (fin := set_bank_response (now w) d t0) in *.
    assert (Hfk' : forall x t, x = t0 \/ x = fin ->
              t ∈ (transactions w ++ [x])%list ->
              exists y, y ∈ payment_links w /\ pl_id y = tx_payment_link_id t).
    { intros x t Hx Ht. apply elem_of_app in Ht as [Ht | Ht]; [auto|].
      apply list_elem_of_singleton in Ht. subst t. exists pl. split; [exact Hin|].
      destruct Hx as [-> | ->]; reflexivity. }
    destruct Hcase as [(-> & -> & _) | [(-> & -> & Hst & _)
                      | [(-> & -> & Hst & err & Hup & _) | (Hup & -> & Hst & _)]]].
    + (* the finalize write threw: the new row is [processing] *)
      unfold serial_inv. cbn [payment_links transactions]. repeat (split; [assumption|]). split; [eauto|].
      intros x m Hx Hm. rewrite completed_of_snoc, decide_False, app_nil_r;
        [exact (Hcount x m Hx Hm)|].
      cbn. intros [_ Hc]. discriminate.
    + (* a decline *)
      unfold serial_inv. cbn [payment_links transactions]. repeat (split; [assumption|]). split; [eauto|].
      intros x m Hx Hm. rewrite completed_of_snoc, decide_False, app_nil_r;
        [exact (Hcount x m Hx Hm)|].
      cbn. tauto.
    + (* approved, counter update refused: only an uncapped link gets here *)
      unfold serial_inv. cbn [payment_links transactions]. repeat (split; [assumption|]). split; [eauto|].
      intros x m Hx Hm. rewrite completed_of_snoc, decide_False, app_nil_r;
        [exact (Hcount x m Hx Hm)|].
      cbn. intros [Hid _]. symmetry in Hid. apply Hsole in Hid; [|exact Hx]. subst x.
      unfold update_link_uses in Hup. rewrite Hkept in Hup.
      apply db_update_Err_checked in Hup as (y & Hy & Hyid & Hyrow).
      apply Hsole in Hyid; [|exact Hy]. subst y.
      rewrite Forall_forall in Hrow.
      rewrite (increment_row_ok _ pl m (Hrow pl Hin) Hm (Hfree m Hm)) in Hyrow.
      discriminate.
    + (* approved and counted *)
      unfold update_link_uses in Hup. rewrite Hkept in Hup.
      unfold serial_inv. cbn [payment_links transactions].
      split; [exact (db_update_preserves _ _ _ _ _ _ (fun r H => H) Hup Hrow)|].
      split; [refine (db_update_Ok_all _ _ _ _ _ _ _ Hup Hpos);
              intros y Hy m Hm; exact (Hy m Hm)|].
      split; [rewrite (db_update_keeps_column _ (increment_uses (now w)) _ pl_id _ _
                         (fun _ => eq_refl) Hup); exact Hnd|].
      split.
      * intros t Ht. destruct (Hfk' fin t (or_intror eq_refl) Ht) as (y & Hy & Hid).
        destruct (db_update_same_link _ _ _ _ _ _ (increment_uses_same_link _) Hup Hy)
          as (y' & Hy' & Hs).
        exists y'. split; [exact Hy'|]. unfold same_link in Hs. intuition congruence.
      * intros x m Hx Hm. rewrite (db_update_Ok _ _ _ _ _ Hup) in Hx.
        apply list_elem_of_fmap in Hx as (x0 & -> & Hx0).
        rewrite completed_of_snoc.
        destruct (decide (pl_id x0 = pl_id pl)) as [Hid|Hid].
        -- apply Hsole in Hid; [|exact Hx0]. subst x0. cbn in Hm |- *.
           rewrite decide_True by (cbn; auto).
           rewrite length_app. cbn [length]. rewrite Nat2Z.inj_add, (Hcount pl m Hin Hm).
           reflexivity.
        -- rewrite decide_False, app_nil_r; [exact (Hcount x0 m Hx0 Hm)|].
           cbn. intros [Heq _]. congruence.
Qed.

Lemma serve_all_serial_inv rt qs : forall w,
  Forall counter_write_kept qs -> serial_inv w -> serial_inv (serve_all rt w qs).
Proof.
  induction qs as [|q qs IH]; intros w Hkept Hinv; [exact Hinv|].
  apply Forall_cons in Hkept as [Hq Hqs].
  apply (IH (serve rt w q) Hqs), serve_serial_inv; assumption.
Qed.

(** X7. When requests are served one at a time and no counter update is lost
    to a connection fault, the cap holds: after any such sequence of link
    creations, link updates, waits and redemptions, a link with
    [max_uses = m] has exactly [current_uses] completed transactions, and
    that number is at most [m]. *)
Theorem serial_redemptions_respect_the_cap rt t0 qs pl m :
  Forall counter_write_kept qs ->
  pl ∈ payment_links (serve_all rt (init t0) qs) ->
  pl_max_uses pl = Some m ->
  Z.of_nat (length (completed_of (pl_id pl) (transactions (serve_all rt (init t0) qs))))
  = pl_current_uses pl
  /\ pl_current_uses pl <= m.
Proof.
  intros Hkept Hpl Hm.
  destruct (serve_all_serial_inv rt qs (init t0) Hkept (serial_inv_init t0))
    as (Hrow & _ & _ & _ & Hcount).
  split; [exact (Hcount pl m Hpl Hm)|].
  rewrite Forall_forall in Hrow.
  exact (row_checked_within_limit pl (Hrow pl Hpl) m Hm).
Qed.

(** X7, at the single-use link redeemed twice in a row with approved cards:
    the second request is refused by the guard. *)
Lemma serial_redemptions_respect_the_cap_witness :
  let qs := [ Create "merchant" Demo.once Demo.once_env;
              Redeem Demo.token Demo.good_card (Demo.quiet "tx-a");
              Redeem Demo.token Demo.good_card (Demo.quiet "tx-b") ] in
  let pl := increment_uses Demo.t0
              (new_payment_link Demo.rt Demo.t0 "merchant" Demo.once Demo.once_env) in
  Z.of_nat (length (completed_of (pl_id pl)
                      (transactions (serve_all Demo.rt (init Demo.t0) qs))))
  = 1
  /\ pl_current_uses pl <= 1.
Proof.
  intros qs pl.
  refine (serial_redemptions_respect_the_cap Demo.rt Demo.t0 qs pl 1 _ _ _).
  - repeat constructor.
  - vm_compute. left.
  - reflexivity.
Defined.

(** ** The public view and the redemption guards *)

Lemma get_public_link_guards nw users links l pl u rest :
  select_link_with_owner l users links = (pl, u) :: rest ->
  match link_precheck nw pl with
  | Some LinkInactive => get_public_link false nw users links l = ViewInactive
  | Some LinkExpired => get_public_link false nw users links l = ViewExpired
  | Some LinkExhausted => get_public_link false nw users links l = ViewExhausted
  | Some _ => False
  | None => exists v, get_public_link false nw users links l = Viewed v
              /\ v_amount v = pl_amount pl /\ v_currency v = pl_currency pl
              /\ v_currentUses v = pl_current_uses pl
              /\ v_merchantName v = u_first_name u ++ " " ++ u_last_name u
  end.
Proof.
  intros Hsel. unfold get_public_link, link_precheck. rewrite Hsel.
  destruct (negb (pl_is_active pl)); [reflexivity|].
  destruct (pl_expires_at pl) as [x|]; cbn [from_option].
  - destruct (x <? nw); [reflexivity|].
    destruct (pl_max_uses pl) as [m|]; cbn [from_option].
    + destruct (negb (m =? 0) && (m <=? pl_current_uses pl)); [reflexivity|].
      eexists. split; [reflexivity|]. cbn. auto.
    + eexists. split; [reflexivity|]. cbn. auto.
  - destruct (pl_max_uses pl) as [m|]; cbn [from_option].
    + destruct (negb (m =? 0) && (m <=? pl_current_uses pl)); [reflexivity|].
      eexists. split; [reflexivity|]. cbn. auto.
    + eexists. split; [reflexivity|]. cbn. auto.
Qed.

(** X8. The page of a link and the redemption agree.  For a link whose owner
    row exists, at one instant: when [GET /pay/:linkId] refuses the link as
    inactive, expired or exhausted, a well-formed payment is refused with the
    same reason; when it shows the link (with the link's amount, currency and
    counter and the owner's name), a well-formed payment gets past the three
    guards. *)
Theorem view_agrees_with_redemption rt w users l b e pl rest u others :
  filter (fun x => pl_link_id x = l) (payment_links w) = pl :: rest ->
  filter (fun x => u_id x = pl_user_id pl) users = u :: others ->
  validate_process rt b = [] ->
  select_fault e = false ->
  let answer := response_of w (process rt w l b e) in
  match get_public_link false (now w) users (payment_links w) l with
  | ViewInactive => answer = Some LinkInactive
  | ViewExpired => answer = Some LinkExpired
  | ViewExhausted => answer = Some LinkExhausted
  | Viewed v =>
      (exists r, answer = Some r /\ past_precheck r)
      /\ v_amount v = pl_amount pl /\ v_currency v = pl_currency pl
      /\ v_currentUses v = pl_current_uses pl
      /\ v_merchantName v = u_first_name u ++ " " ++ u_last_name u
  | ViewNotFound | ViewThrown _ => False
  end.
Proof.
  intros Hrows Howner Hval Hsel answer. subst answer.
  assert (Hjoin : exists more,
            select_link_with_owner l users (payment_links w) = (pl, u) :: more).
  { unfold select_link_with_owner. rewrite Hrows. cbn. rewrite Howner. cbn.
    eexists. reflexivity. }
  destruct Hjoin as [more Hjoin].
  pose proof (get_public_link_guards (now w) users (payment_links w) l pl u more Hjoin)
    as Hview.
  destruct (link_precheck (now w) pl) as [r|] eqn:Hpre.
  - assert (Hanswer : response_of w (process rt w l b e) = Some r).
    { eapply response_of_process;
        [apply (segments_rejected _ _ _ _ _ _ _ pl rest); eassumption | reflexivity]. }
    destruct r; try contradiction; rewrite Hview; exact Hanswer.
  - destruct Hview as (v & -> & Hfields). split; [|exact Hfields].
    destruct (segments_after_select rt (now w) (payment_links w) (transactions w)
                {| linkId := l; body := b; env := e; pc := AfterSelect (pl :: rest) |}
                pl rest eq_refl Hpre) as (links' & txs' & r & Hseg & Hr).
    exists r. split; [|exact Hr].
    eapply response_of_process;
      [rewrite (segments_select _ _ _ _ _ _ _ pl rest) by assumption; exact Hseg
      | reflexivity].
Qed.

(** X8, at the link created with an expiry in 2020: the page and the payment
    both answer that it has expired. *)
Lemma view_agrees_with_redemption_witness :
  response_of Demo.stale_shop
    (process Demo.rt Demo.stale_shop Demo.stale_token Demo.good_card (Demo.quiet "tx-1"))
  = Some LinkExpired.
Proof.
  exact (view_agrees_with_redemption Demo.rt Demo.stale_shop
           [ {| u_id := "merchant"; u_first_name := "Mia"; u_last_name := "Merchant" |} ]
           Demo.stale_token Demo.good_card (Demo.quiet "tx-1")
           (new_payment_link Demo.rt Demo.t0 "merchant" Demo.stale Demo.stale_env) []
           {| u_id := "merchant"; u_first_name := "Mia"; u_last_name := "Merchant" |} []
           eq_refl eq_refl eq_refl eq_refl).
Defined.

(** ** The status filter of the link listing *)

(** X9. The three values of the [status] filter against the redemption
    guards, at one instant.  Every link is listed under at least one of
    [active], [expired], [inactive], and none under both [active] and one of
    the other two.  A link listed as [active] is never refused as inactive or
    expired by the redemption handler (it can still be exhausted).  The two
    tests of expiry differ at the boundary: a link whose [expires_at] is
    exactly now is listed as [expired] (the filter tests [<=]) while the
    redemption handler does not yet treat it as expired (it tests [<]).  An
    unknown filter value lists every link. *)
Theorem status_filter_against_guards now_ pl :
  (status_clause (Some "active") now_ pl
   || status_clause (Some "expired") now_ pl
   || status_clause (Some "inactive") now_ pl = true)
  /\ (status_clause (Some "active") now_ pl = true ->
      status_clause (Some "expired") now_ pl = false
      /\ status_clause (Some "inactive") now_ pl = false
      /\ (link_precheck now_ pl = None \/ link_precheck now_ pl = Some LinkExhausted))
  /\ (pl_expires_at pl = Some now_ ->
      status_clause (Some "expired") now_ pl = true
      /\ status_clause (Some "active") now_ pl = false
      /\ link_precheck now_ pl <> Some LinkExpired)
  /\ (forall s, s <> "active" -> s <> "expired" -> s <> "inactive" ->
      status_clause (Some s) now_ pl = true).
Proof.
  unfold status_clause, link_precheck. cbn [String.eqb Ascii.eqb].
  change (String.eqb "active" "active") with true.
  change (String.eqb "expired" "active") with false.
  change (String.eqb "expired" "expired") with true.
  change (String.eqb "inactive" "active") with false.
  change (String.eqb "inactive" "expired") with false.
  change (String.eqb "inactive" "inactive") with true.
  cbv iota.
  split; [|split; [|split]].
  - destruct (pl_is_active pl), (pl_expires_at pl) as [x|]; cbn;
      rewrite ?orb_true_r; try reflexivity.
    destruct (Z.ltb_spec now_ x), (Z.leb_spec x now_); cbn; try reflexivity; lia.
  - intros Hact. destruct (pl_is_active pl); cbn in *; [|discriminate].
    destruct (pl_expires_at pl) as [x|]; cbn in *.
    + apply Z.ltb_lt in Hact.
      destruct (Z.leb_spec x now_); [lia|]. destruct (Z.ltb_spec x now_); [lia|].
      repeat split.
      destruct (from_option _ false (pl_max_uses pl)); auto.
    + repeat split. destruct (from_option _ false (pl_max_uses pl)); auto.
  - intros ->. cbn. rewrite Z.leb_refl, Z.ltb_irrefl, andb_false_r.
    repeat split.
    destruct (negb (pl_is_active pl)); [discriminate|].
    destruct (from_option _ false (pl_max_uses pl)); discriminate.
  - intros s H1 H2 H3.
    destruct (String.eqb_spec s "active"); [contradiction|].
    destruct (String.eqb_spec s "expired"); [contradiction|].
    destruct (String.eqb_spec s "inactive"); [contradiction|]. reflexivity.
Qed.

(** ** Pages of a listing *)






(** ** Strings *)

Lemma substring_all s : substring 0 (String.length s) s = s.
Proof. induction s as [|c s IH]; [reflexivity|]. cbn. rewrite IH. reflexivity. Qed.

(** Cutting a string at [k] gives back the string. *)
Lemma substring_split s : forall k, (k <= String.length s)%nat ->
  s = substring 0 k s ++ substring k (String.length s - k) s.
Proof.
  induction s as [|c s IH]; intros k Hk.
  - destruct k; [reflexivity | cbn in Hk; lia].
  - destruct k as [|k]; [cbn; rewrite substring_all; reflexivity|].
    cbn in Hk. cbn [String.length Nat.sub substring].
    rewrite (IH k) at 1 by lia. reflexivity.
Qed.

Lemma substring_length s : forall k m, (k + m <= String.length s)%nat ->
  String.length (substring k m s) = m.
Proof.
  induction s as [|c s IH]; intros k m Hkm.
  - cbn in Hkm. destruct k, m; cbn; lia.
  - destruct k as [|k]; cbn.
    + destruct m as [|m]; [reflexivity|]. cbn. rewrite IH; [reflexivity | cbn in Hkm; lia].
    + apply IH. cbn in Hkm. lia.
Qed.

Lemma substring_length_le s : forall k m, (String.length (substring k m s) <= m)%nat.
Proof.
  induction s as [|c s IH]; intros k m.
  - destruct k, m; cbn; lia.
  - destruct k as [|k]; cbn; [|apply IH].
    destruct m as [|m]; cbn; [lia|]. specialize (IH 0%nat m). lia.
Qed.

Lemma substring_all_chars p s : forall k m,
  Js.all_chars p s = true -> Js.all_chars p (substring k m s) = true.
Proof.
  induction s as [|c s IH]; intros k m Hall.
  - destruct k, m; reflexivity.
  - cbn in Hall. apply andb_true_iff in Hall as [Hc Hs].
    destruct k as [|k]; cbn; [|apply IH, Hs].
    destruct m as [|m]; [reflexivity|]. cbn. rewrite Hc. apply IH, Hs.
Qed.



(** ** What a request that passes validation looks like *)

Lemma validate_process_passed rt b :
  validate_process rt b = [] ->
  isEmail rt (default "" (payerEmail b)) = true
  /\ Js.isLength 1 255 (Js.trim (default "" (payerName b))) = true
  /\ Js.isLength 13 19 (default "" (cardNumber b)) = true
  /\ Js.matches_digits (default "" (cardNumber b)) = true
  /\ (exists m, expiryMonth b = Some m /\ 1 <= m <= 12)
  /\ (exists y, expiryYear b = Some y /\ startupYear rt <= y)
  /\ Js.isLength 3 4 (default "" (cvv b)) = true
  /\ Js.matches_digits (default "" (cvv b)) = true.
Proof.
  unfold validate_process. intros Hval.
  repeat (apply app_eq_nil in Hval as [?H Hval]).
  unfold check_field in *.
  repeat match goal with
         | Hc : (if ?c then _ else _) = [] |- _ => destruct c eqn:?; [clear Hc | discriminate Hc]
         end.
  repeat split; try assumption.
  - destruct (expiryMonth b) as [m|]; [|discriminate]. exists m. split; [reflexivity|].
    cbn in *. lia.
  - destruct (expiryYear b) as [y|]; [|discriminate]. exists y. split; [reflexivity|].
    cbn in *. lia.
Qed.

Lemma matches_digits_chars s :
  Js.matches_digits s = true -> s <> "" /\ Js.all_chars Js.is_digit s = true.
Proof. destruct s; [discriminate|]. intros H. split; [discriminate | exact H]. Qed.

(** ** The bank's decision and the card columns *)



(** X12. For a request that passes validation, the row written to the ledger
    holds of the card number only its last four characters: [card_last4] has
    exactly four characters, all digits, and the card number ends with them;
    [card_brand] is one of the five brand names.  Both fit their columns. *)
Theorem ledger_keeps_last_four_digits rt nw id pl b :
  validate_process rt b = [] ->
  let t := new_transaction rt nw id pl b in
  String.length (tx_card_last4 t) = 4%nat
  /\ Js.all_chars Js.is_digit (tx_card_last4 t) = true
  /\ (exists front, default "" (cardNumber b) = front ++ tx_card_last4 t
        /\ (9 <= String.length front <= 15)%nat)
  /\ tx_card_brand t ∈ ["Visa"; "Mastercard"; "Amex"; "Discover"; "Unknown"]
  /\ varchar_fits 4 (tx_card_last4 t) = true
  /\ varchar_fits 20 (tx_card_brand t) = true.
Proof.
  intros Hval t. subst t. cbn [new_transaction tx_card_last4 tx_card_brand].
  destruct (validate_process_passed rt b Hval) as (_ & _ & Hlen & Hdig & _).
  set (s := default "" (cardNumber b)) in *.
  unfold Js.isLength in Hlen. apply andb_true_iff in Hlen as [Hlo Hhi].
  apply Nat.leb_le in Hlo, Hhi.
  apply matches_digits_chars in Hdig as [_ Hdig].
  assert (Hl4 : String.length (Js.slice_last 4 s) = 4%nat)
    by (unfold Js.slice_last; apply substring_length; lia).
  assert (Hbrand : getCardBrand s ∈ ["Visa"; "Mastercard"; "Amex"; "Discover"; "Unknown"]).
  { unfold getCardBrand.
    repeat match goal with
           | |- context [if ?c then _ else _] => destruct c
           end; apply list_elem_of_In; cbn; tauto. }
  split; [exact Hl4|].
  split; [unfold Js.slice_last; apply substring_all_chars, Hdig|].
  split.
  { exists (substring 0 (String.length s - 4) s). split.
    - unfold Js.slice_last.
      pose proof (substring_split s (String.length s - 4) ltac:(lia)) as Hcut.
      replace (String.length s - (String.length s - 4))%nat with 4%nat in Hcut by lia.
      exact Hcut.
    - rewrite substring_length by lia. lia. }
  split; [exact Hbrand|].
  split; [unfold varchar_fits; rewrite Hl4; reflexivity|].
  repeat (apply elem_of_cons in Hbrand as [-> | Hbrand]; [reflexivity|]).
  inversion Hbrand.
Qed.

(** X12, at the approved card. *)
Lemma ledger_keeps_last_four_digits_witness :
  String.length
    (tx_card_last4
       (new_transaction Demo.rt Demo.t0 "tx-1"
          (new_payment_link Demo.rt Demo.t0 "merchant" Demo.once Demo.once_env)
          Demo.good_card)) = 4%nat.
Proof.
  exact (proj1 (ledger_keeps_last_four_digits Demo.rt Demo.t0 "tx-1"
                  (new_payment_link Demo.rt Demo.t0 "merchant" Demo.once Demo.once_env)
                  Demo.good_card eq_refl)).
Defined.

(** ** Tokens and new links *)

Lemma remove_char_gone c s :
  Js.all_chars (fun a => negb (Ascii.eqb a c)) (remove_char c s) = true.
Proof.
  induction s as [|a s IH]; [reflexivity|]. cbn.
  destruct (Ascii.eqb a c) eqn:Ha; [exact IH|]. cbn. rewrite Ha. exact IH.
Qed.

(** X13. The token cut from a uuid never holds a hyphen and never has more
    than 16 characters, so it always fits its [VARCHAR(50)] column; it has
    exactly 16 whenever the uuid has at least 16 characters besides hyphens,
    as every canonical uuid does. *)
Theorem token_shape u :
  (String.length (link_id_of_uuid u) <= 16)%nat
  /\ Js.all_chars (fun a => negb (Ascii.eqb a "-")) (link_id_of_uuid u) = true
  /\ varchar_fits 50 (link_id_of_uuid u) = true
  /\ ((16 <= String.length (remove_char "-" u))%nat ->
      String.length (link_id_of_uuid u) = 16%nat).
Proof.
  unfold link_id_of_uuid.
  pose proof (substring_length_le (remove_char "-" u) 0 16) as Hle.
  split; [exact Hle|].
  split; [apply substring_all_chars, remove_char_gone|].
  split; [unfold varchar_fits; apply Nat.leb_le; lia|].
  intros Hlong. apply substring_length. lia.
Qed.

(** X14. Looking up a link that has just been created finds that link and no
    other: after [POST /links] answers [Created pl], the SELECT of the
    redemption handler on [pl]'s token returns exactly [pl].  The new link is
    active, unused and owned by the caller; and when the request gave no
    expiry and the default number of hours is not negative, the link passes
    the three redemption guards at the instant of its creation. *)
Theorem created_link_is_found rt nw user b e links links' pl :
  create_link rt nw user b e links = (links', Created pl) ->
  select_link_by_link_id false (pl_link_id pl) links' = Ok [pl]
  /\ pl_is_active pl = true
  /\ pl_current_uses pl = 0
  /\ pl_user_id pl = user
  /\ (expiresAt b = None -> 0 <= defaultExpiryHours rt -> link_precheck nw pl = None).
Proof.
  intros Hcreate.
  pose proof (create_link_links rt nw user b e links) as Hlinks.
  rewrite Hcreate in Hlinks. cbn [fst] in Hlinks.
  assert (Hpl : pl = new_payment_link rt nw user b e).
  { unfold create_link in Hcreate. destruct (validate_create rt b); [|discriminate].
    destruct (insert_payment_link _ _ _); [|discriminate]. congruence. }
  destruct Hlinks as [-> | (x & -> & -> & Hval & Hrow & Hfresh)].
  { exfalso. unfold create_link in Hcreate. destruct (validate_create rt b); [|discriminate].
    unfold insert_payment_link in Hcreate.
    split_matches Hcreate; try discriminate.
    injection Hcreate as Heq _. subst.
    match goal with H : _ = Ok links |- _ => rename H into Hins end.
    split_matches Hins; try discriminate.
    injection Hins as Heq. apply (f_equal length) in Heq.
    rewrite length_app in Heq. cbn in Heq. lia. }
  rewrite <- Hpl in *. clear Hcreate. split; [|split; [|split; [|split]]].
  - unfold select_link_by_link_id. f_equal.
    rewrite filter_app, filter_cons, filter_nil, decide_True by reflexivity.
    assert (Hnone : filter (fun r => pl_link_id r = pl_link_id pl) links = []).
    { destruct (filter _ links) as [|y ys] eqn:Hf; [reflexivity|].
      destruct (filter_head_elem _ _ _ _ Hf) as [Hy Hky].
      rewrite Forall_forall in Hfresh. destruct (proj2 (Hfresh y Hy) Hky). }
    rewrite Hnone. reflexivity.
  - subst pl. reflexivity.
  - subst pl. reflexivity.
  - subst pl. reflexivity.
  - intros Hnone Hhours. subst pl. unfold link_precheck, new_payment_link, expiryDate.
    cbn. rewrite Hnone. cbn.
    destruct (Z.ltb_spec (nw + defaultExpiryHours rt * ms_per_hour) nw) as [Hlt|_].
    { unfold ms_per_hour in Hlt. lia. }
    unfold validate_create in Hval.
    repeat (apply app_eq_nil in Hval as [?H Hval]).
    destruct (maxUses b) as [| |n]; cbn; try reflexivity.
    unfold check_field in Hval. destruct (Z.leb_spec 1 n); [|discriminate].
    destruct (Z.eqb_spec n 0); [lia|]. destruct (Z.leb_spec n 0); [lia | reflexivity].
Qed.

(** X14, at the single-use link created on the empty server. *)
Lemma created_link_is_found_witness :
  select_link_by_link_id false Demo.token (payment_links Demo.shop)
  = Ok [new_payment_link Demo.rt Demo.t0 "merchant" Demo.once Demo.once_env].
Proof.
  exact (proj1 (created_link_is_found Demo.rt Demo.t0 "merchant" Demo.once Demo.once_env
                  [] _ _ eq_refl)).
Defined.

(** ** Updating a link *)

(** X15. [PUT /links/:linkId] touches nothing but the caller's own link with
    that token.  Whatever the request and its outcome, every row of another
    owner or another token is in the table afterwards exactly as before;
    every row afterwards is a row from before with the same id, owner, token,
    amount, currency, expiry, cap and counter; and when the caller owns no
    link with that token a well-formed request is answered [NotFound] and
    changes nothing. *)
Theorem update_spares_other_links nw user l b fault links :
  (forall r, r ∈ links -> pl_user_id r <> user \/ pl_link_id r <> l ->
     r ∈ fst (update_link nw user l b fault links))
  /\ (forall r', r' ∈ fst (update_link nw user l b fault links) ->
      exists r, r ∈ links /\ same_link r r' /\ pl_current_uses r' = pl_current_uses r)
  /\ (filter (fun r => pl_link_id r = l /\ pl_user_id r = user) links = [] ->
      validate_update b = [] -> fault = false ->
      update_link nw user l b fault links = (links, UpdateNotFound)).
Proof.
  split; [|split].
  - intros r Hr Hother.
    destruct (update_link_links nw user l b fault links) as [-> | (d & a & Hup)];
      [exact Hr|].
    unfold update_link_metadata in Hup. rewrite (db_update_Ok _ _ _ _ _ Hup).
    apply list_elem_of_fmap. exists r. split; [|exact Hr].
    rewrite decide_False; [reflexivity | tauto].
  - intros r' Hr'.
    destruct (update_link_links nw user l b fault links) as [Heq | (d & a & Hup)].
    + rewrite Heq in Hr'. exists r'. split; [exact Hr'|].
      split; [apply same_link_refl | reflexivity].
    + unfold update_link_metadata in Hup. rewrite (db_update_Ok _ _ _ _ _ Hup) in Hr'.
      apply list_elem_of_fmap in Hr' as (r & -> & Hr). exists r. split; [exact Hr|].
      destruct (decide _); [|split; [apply same_link_refl | reflexivity]].
      split; [apply set_metadata_same_link | reflexivity].
  - intros Hnone Hval ->. unfold update_link. rewrite Hval, Hnone. reflexivity.
Qed.

(** ** The ledger in reachable worlds *)

Lemma segment_decisions rt nw links txs t links' txs' p :
  segment rt nw links txs t = (links', txs', p) ->
  (forall pl id created d, pc t = AfterBank pl id created d -> bank_decision d) ->
  (txs' = txs
   \/ (exists pl, txs' = (txs ++ [new_transaction rt nw (uuid (env t)) pl (body t)])%list)
   \/ (exists id d, bank_decision d
         /\ update_transaction (update_fault (env t)) nw d id txs = Ok txs'))
  /\ (forall pl id created d, p = AfterBank pl id created d -> bank_decision d).
Proof.
  unfold segment. intros Hseg Hheld.
  destruct (pc t) as [|rows|pl id created|pl id created d|pl id created d|r] eqn:Hpc.
  - split_matches Hseg; injection Hseg as <- <- <-; (split; [auto | intros ? ? ? ? [=]]).
  - destruct rows as [|paymentLink rest].
    { injection Hseg as <- <- <-. split; [auto | intros ? ? ? ? [=]]. }
    destruct (link_precheck nw paymentLink).
    { injection Hseg as <- <- <-. split; [auto | intros ? ? ? ? [=]]. }
    destruct (card_expired _ _ _ _).
    { injection Hseg as <- <- <-. split; [auto | intros ? ? ? ? [=]]. }
    destruct (insert_transaction _ _ _ _) as [txs1|err] eqn:Hins.
    2:{ injection Hseg as <- <- <-. split; [auto | intros ? ? ? ? [=]]. }
    injection Hseg as <- <- <-.
    destruct (insert_transaction_Ok _ _ _ _ _ Hins) as (-> & _ & _).
    split; [|intros ? ? ? ? [=]]. right. left. eauto.
  - injection Hseg as <- <- <-. split; [auto|].
    intros ? ? ? d0 [= _ _ _ <-]. apply simulateBankAPI_cases.
  - destruct (update_transaction _ _ _ _ _) as [txs2|err] eqn:Hup.
    2:{ injection Hseg as <- <- <-. split; [auto | intros ? ? ? ? [=]]. }
    assert (Hd : bank_decision d) by (eapply Hheld; reflexivity).
    destruct (status d); injection Hseg as <- <- <-;
      (split; [right; right; eauto | intros ? ? ? ? [=]]).
  - split_matches Hseg; injection Hseg as <- <- <-; (split; [auto | intros ? ? ? ? [=]]).
  - injection Hseg as <- <- <-. split; [auto | intros ? ? ? ? [=]].
Qed.

Lemma new_transaction_well_shaped rt nw id pl b :
  well_shaped (new_transaction rt nw id pl b).
Proof. left. cbn. auto. Qed.

Lemma update_transaction_well_shaped fault nw d id txs txs' :
  bank_decision d ->
  update_transaction fault nw d id txs = Ok txs' ->
  (forall t, t ∈ txs -> well_shaped t) ->
  forall t, t ∈ txs' -> well_shaped t.
Proof.
  intros Hd Hup Hall t Ht. unfold update_transaction in Hup.
  destruct fault; [discriminate|].
  rewrite (db_update_Ok _ _ _ _ _ Hup) in Ht.
  apply list_elem_of_fmap in Ht as (r & -> & Hr).
  destruct (decide (tx_id r = id)) as [Hid|_]; [|auto].
  pose proof (db_update_Ok_checked _ _ _ _ _ r Hup Hr Hid) as Hchk.
  right. exists d. split.
  - destruct Hd as [-> | [-> | ->]]; auto.
    exfalso. unfold transaction_row_error in Hchk. cbn in Hchk.
    rewrite andb_false_r in Hchk. discriminate.
  - cbn. repeat split; auto; discriminate.
Qed.

Lemma step_shape rt w ev : shape_inv w -> shape_inv (step rt w ev).
Proof.
  intros [Hrows Htasks].
  destruct ev as [dt|user b e|user l b fault|l b e|i]; cbn [step].
  1-3: split; [exact Hrows | exact Htasks].
  - split; [exact Hrows|]. cbn [tasks]. intros j t pl id created d Hj Hpc.
    apply lookup_snoc_Some in Hj as [[_ Hj] | [_ <-]]; [eauto | discriminate].
  - destruct (tasks w !! i) as [t|] eqn:Hi; [|split; assumption].
    destruct (segment rt (now w) (payment_links w) (transactions w) t)
      as [[links' txs'] p] eqn:Hseg.
    destruct (segment_decisions _ _ _ _ _ _ _ _ Hseg
                (fun pl id created d => Htasks i t pl id created d Hi)) as [Htxs Hp].
    split; cbn [transactions tasks].
    + destruct Htxs as [-> | [(pl & ->) | (id & d & Hd & Hup)]].
      * exact Hrows.
      * intros x Hx. apply elem_of_app in Hx as [Hx | Hx]; [auto|].
        apply list_elem_of_singleton in Hx. subst x. apply new_transaction_well_shaped.
      * exact (update_transaction_well_shaped _ _ _ _ _ _ Hd Hup Hrows).
    + intros j tj pl id created d Hj Hpc.
      apply list_lookup_insert_Some in Hj as [(-> & <- & _) | [_ Hj]]; [|eauto].
      destruct t; cbn in Hpc. eauto.
Qed.

Lemma set_bank_response_same_attempt nw d t : same_attempt t (set_bank_response nw d t).
Proof. unfold same_attempt. cbn. repeat split. Qed.

Lemma same_attempt_refl t : same_attempt t t.
Proof. unfold same_attempt. repeat split. Qed.

Lemma same_attempt_trans a b c : same_attempt a b -> same_attempt b c -> same_attempt a c.
Proof. unfold same_attempt. intuition congruence. Qed.

Lemma step_attempts rt w ev t :
  t ∈ transactions w ->
  exists t', t' ∈ transactions (step rt w ev) /\ same_attempt t t'.
Proof.
  intros Ht.
  destruct ev as [dt|user b e|user l b fault|l b e|i]; cbn [step].
  1-4: exists t; split; [exact Ht | apply same_attempt_refl].
  destruct (tasks w !! i) as [task|] eqn:Hi;
    [|exists t; split; [exact Ht | apply same_attempt_refl]].
  destruct (segment rt (now w) (payment_links w) (transactions w) task)
    as [[links' txs'] p] eqn:Hseg.
  destruct (segment_sources _ _ _ _ _ _ _ _ Hseg) as [Htxs _]. cbn [transactions].
  destruct Htxs as [-> | [(pl & rest & _ & ->) | (id & d & ->)]].
  - exists t; split; [exact Ht | apply same_attempt_refl].
  - exists t; split; [apply elem_of_app; auto | apply same_attempt_refl].
  - exists (if decide (tx_id t = id) then set_bank_response (now w) d t else t). split.
    + apply list_elem_of_fmap. eauto.
    + destruct (decide _);
        [apply set_bank_response_same_attempt | apply same_attempt_refl].
Qed.

(** X16. Every row of the ledger, in every world the server can reach, is
    either as it was inserted (status [processing], no bank code, message,
    failure reason or processing time) or carries one decision of the bank
    in full: status, code, message and failure reason of the same answer,
    which is the approval or the decline for insufficient funds, and a
    processing time.  No row holds a half-written decision, none is ever
    [pending] or [cancelled]. *)
Theorem ledger_rows_are_well_shaped rt w t :
  reachable rt w -> t ∈ transactions w -> well_shaped t.
Proof.
  intros (t0 & evs & ->).
  assert (Hinv : shape_inv (run rt (init t0) evs)).
  { apply run_invariant; [intros; apply step_shape; assumption|].
    split; [intros x Hx; inversion Hx | intros i x pl id c d Hi; inversion Hi]. }
  apply Hinv.
Qed.

(** X16, at the row left by two redemptions racing for one use. *)
Lemma ledger_rows_are_well_shaped_witness : well_shaped Demo.tx_a.
Proof.
  apply (ledger_rows_are_well_shaped Demo.rt Demo.raced Demo.tx_a).
  - exists Demo.t0, (CreateLink "merchant" Demo.once Demo.once_env :: Demo.race).
    reflexivity.
  - vm_compute. left.
Defined.

(** X17. A redemption attempt, once in the ledger, stays there with what it
    was inserted with: whatever requests are handled afterwards, in whatever
    interleaving, a row with the same id, link, payer e-mail and name,
    amount, currency, payment method, card digits, card brand and creation
    time is still in the ledger.  Only the status and the bank's answer are
    ever rewritten. *)
Theorem attempts_keep_their_data rt evs : forall w t,
  t ∈ transactions w ->
  exists t', t' ∈ transactions (run rt w evs) /\ same_attempt t t'.
Proof.
  induction evs as [|ev evs IH]; intros w t Ht.
  - exists t. split; [exact Ht | apply same_attempt_refl].
  - destruct (step_attempts rt w ev t Ht) as (t1 & Ht1 & Hs1).
    destruct (IH _ _ Ht1) as (t2 & Ht2 & Hs2).
    exists t2. split; [exact Ht2 | exact (same_attempt_trans _ _ _ Hs1 Hs2)].
Qed.

(** X17, at the first row of the race and the requests that follow it. *)
Lemma attempts_keep_their_data_witness :
  exists t', t' ∈ transactions (run Demo.rt Demo.raced Demo.aftermath)
             /\ same_attempt Demo.tx_a t'.
Proof.
  apply (attempts_keep_their_data Demo.rt Demo.aftermath Demo.raced Demo.tx_a).
  vm_compute. left.
Defined.

(** ** The routes of [/api/transactions] *)

Lemma lower_slash x : lower x = "/"%char -> x = "/"%char.
Proof.
  destruct x as [[] [] [] [] [] [] [] []]; vm_compute; intros H;
    first [reflexivity | discriminate H].
Qed.

Lemma eqb_nocase_no_slash seg : forall name,
  eqb_nocase seg name = true ->
  Js.all_chars (fun c => negb (Ascii.eqb c "/")) name = true ->
  Js.all_chars (fun c => negb (Ascii.eqb c "/")) seg = true.
Proof.
  induction seg as [|x seg IH]; intros [|y name] Heq Hname; try discriminate;
    [reflexivity|].
  cbn in Heq, Hname |- *.
  apply andb_true_iff in Heq as [Hxy Hrest]. apply andb_true_iff in Hname as [Hy Hname].
  rewrite (IH _ Hrest Hname), andb_true_r.
  destruct (Ascii.eqb_spec x "/") as [->|_]; [|reflexivity].
  apply Ascii.eqb_eq in Hxy. symmetry in Hxy. apply lower_slash in Hxy. subst y.
  discriminate.
Qed.

(** X18. [GET /api/transactions/summary] never reaches its handler.  The
    router registers ['/:transactionId'] before ['/summary'], and every path
    the second pattern matches is matched by the first, so the request is
    handled as the lookup of a transaction whose id is the word in the
    path. *)
Theorem summary_route_is_shadowed path :
  dispatch_transactions path <> GetSummary
  /\ (matches_literal "summary" path = true ->
      exists id, dispatch_transactions path = GetTransaction id
                 /\ eqb_nocase id "summary" = true).
Proof.
  assert (Hlit : matches_literal "summary" path = true ->
            exists id, matches_root path = false /\ matches_param path = Some id
                       /\ eqb_nocase id "summary" = true).
  { unfold matches_literal, matches_param, matches_root.
    destruct (path_segment path) as [seg|] eqn:Hseg; [|discriminate].
    intros Heq. exists seg.
    pose proof (eqb_nocase_no_slash seg "summary" Heq eq_refl) as Hns.
    destruct seg as [|c seg]; [discriminate|]. rewrite Hns.
    split; [|auto].
    destruct (String.eqb_spec path "") as [->|_]; [discriminate|].
    destruct (String.eqb_spec path "/") as [->|_]; [discriminate | reflexivity]. }
  unfold dispatch_transactions. split.
  - destruct (matches_root path); [discriminate|].
    destruct (matches_param path) eqn:Hp; [discriminate|].
    destruct (matches_literal "summary" path); [|discriminate].
    destruct (Hlit eq_refl) as (id & _ & Hsome & _). congruence.
  - intros Heq. destruct (Hlit Heq) as (id & -> & -> & Hid). eauto.
Qed.

(** ** Relative times *)

(** X19. [formatRelativeTime] rounds down, in one step of the elapsed
    milliseconds [e]: under a minute (also for a date in the future) it says
    'Just now'; under an hour it prints the whole minutes [e / 60000],
    between 1 and 59; under a day the whole hours [e / 3600000], between 1
    and 23; under seven days the whole days [e / 86400000], between 1 and 6;
    from seven days on it prints the date. *)
Theorem relative_time_rounds_down decimal formatDate now_ target :
  let e := now_ - target in
  let shown := formatRelativeTime decimal formatDate now_ target in
  (e < 60000 -> shown = "Just now")
  /\ (60000 <= e < 3600000 ->
      shown = ago decimal (e / 60000) "minute" /\ 1 <= e / 60000 <= 59)
  /\ (3600000 <= e < 86400000 ->
      shown = ago decimal (e / 3600000) "hour" /\ 1 <= e / 3600000 <= 23)
  /\ (86400000 <= e < 604800000 ->
      shown = ago decimal (e / 86400000) "day" /\ 1 <= e / 86400000 <= 6)
  /\ (604800000 <= e -> shown = formatDate target).
Proof.
  intros e shown. subst shown. unfold formatRelativeTime, relativeTime. fold e.
  assert (Hm : e / 1000 / 60 = e / 60000) by (rewrite Z.div_div by lia; reflexivity).
  assert (Hh : e / 1000 / 60 / 60 = e / 3600000)
    by (rewrite Hm, Z.div_div by lia; reflexivity).
  assert (Hd : e / 1000 / 60 / 60 / 24 = e / 86400000)
    by (rewrite Hh, Z.div_div by lia; reflexivity).
  cbv zeta. rewrite Hd, Hh, Hm.
  assert (Hdiv : forall k n, 0 < k -> (e / k < n <-> e < k * n)).
  { intros k n Hk. split; intros H.
    - pose proof (Z.mul_succ_div_gt e k Hk). nia.
    - apply Z.div_lt_upper_bound; assumption. }
  pose proof (Hdiv 1000 60 eq_refl) as Hs.
  pose proof (Hdiv 60000 60 eq_refl) as H1. pose proof (Hdiv 3600000 24 eq_refl) as H2.
  pose proof (Hdiv 86400000 7 eq_refl) as H3.
  pose proof (Hdiv 60000 1 eq_refl) as L1. pose proof (Hdiv 3600000 1 eq_refl) as L2.
  pose proof (Hdiv 86400000 1 eq_refl) as L3.
  repeat split; intros;
    destruct (Z.ltb_spec (e / 1000) 60); try lia;
    destruct (Z.ltb_spec (e / 60000) 60); try lia;
    destruct (Z.ltb_spec (e / 3600000) 24); try lia;
    destruct (Z.ltb_spec (e / 86400000) 7); try lia; try reflexivity.
Qed.

(** ** Instances of the statements on the counter and on declines *)

(** X1, after two redemptions raced for the single use of a link. *)
Lemma uses_never_exceed_limit_witness : Forall within_limit (payment_links Demo.raced).
Proof.
  apply (uses_never_exceed_limit Demo.rt Demo.raced).
  exists Demo.t0, (CreateLink "merchant" Demo.once Demo.once_env :: Demo.race).
  reflexivity.
Defined.

(** X20, at the card refused for insufficient funds. *)
Lemma recorded_decline_witness :
  payment_links (process Demo.rt Demo.shop Demo.token Demo.poor_card (Demo.quiet "tx-1"))
  = payment_links Demo.shop.
Proof.
  refine (proj1 (recorded_decline Demo.rt Demo.shop Demo.token Demo.poor_card
                   (Demo.quiet "tx-1")
                   (receipt_of Demo.t0
                      (new_payment_link Demo.rt Demo.t0 "merchant" Demo.once Demo.once_env)
                      "tx-1" Demo.t0 declined) _ _)).
  - vm_compute; reflexivity.
  - reflexivity.
Defined.

(** ** The counter never overstates the payments *)

Lemma sum_list_with_insert {A : Type} (f : A -> nat) (l : list A) i x y :
  l !! i = Some x ->
  (sum_list_with f (<[i := y]> l) + f x = sum_list_with f l + f y)%nat.
Proof.
  revert i. induction l as [|a l IH]; intros [|i] Hi; try discriminate.
  - injection Hi as ->. simpl. lia.
  - simpl in Hi |- *. specialize (IH i Hi). lia.
Qed.

Lemma completed_of_finalize nw d id k txs :
  (forall r, r ∈ txs -> tx_id r = id -> tx_status r = processing) ->
  let txs' := (fun r => if decide (tx_id r = id) then set_bank_response nw d r else r)
              <$> txs in
  (length (completed_of k txs) <= length (completed_of k txs'))%nat
  /\ (status d = completed -> recorded_for txs id k ->
      (S (length (completed_of k txs)) <= length (completed_of k txs'))%nat).
Proof.
  intros Hproc txs'. subst txs'. unfold completed_of, recorded_for.
  induction txs as [|x txs IH]; [split; [reflexivity | intros _ (r & Hr & _); inversion Hr]|].
  destruct IH as [IHle IHlt].
  { intros r Hr. apply Hproc. right. exact Hr. }
  rewrite fmap_cons, !filter_cons.
  destruct (decide (tx_id x = id)) as [Hx|Hx].
  - assert (Hst : tx_status x = processing) by (apply Hproc; [left | exact Hx]).
    rewrite (decide_False (P := tx_payment_link_id x = k /\ tx_status x = completed))
      by (rewrite Hst; intros [_ [=]]).
    cbn [set_bank_response tx_payment_link_id tx_status].
    split.
    + destruct (decide _); cbn [length]; lia.
    + intros Hd Hrec. destruct (decide (tx_payment_link_id x = k)) as [Hk|Hk].
      * rewrite decide_True by auto. cbn [length]. lia.
      * rewrite decide_False by tauto.
        apply IHlt; [exact Hd|].
        destruct Hrec as (r & Hr & Hid & Hl).
        apply elem_of_cons in Hr as [-> | Hr]; [contradiction | eauto].
  - assert (Hrest : recorded_for (x :: txs) id k -> recorded_for txs id k).
    { intros (r & Hr & Hid & Hl).
      apply elem_of_cons in Hr as [-> | Hr]; [contradiction | exists r; auto]. }
    unfold recorded_for in Hrest.
    destruct (decide (tx_payment_link_id x = k /\ tx_status x = completed)); cbn [length].
    + split; [lia|]. intros Hd Hrec. specialize (IHlt Hd (Hrest Hrec)). lia.
    + split; [exact IHle|]. intros Hd Hrec. exact (IHlt Hd (Hrest Hrec)).
Qed.

Lemma recorded_for_finalize nw d id0 txs id k :
  recorded_for txs id k ->
  recorded_for ((fun r => if decide (tx_id r = id0) then set_bank_response nw d r else r)
                <$> txs) id k.
Proof.
  intros (r & Hr & Hid & Hl).
  exists (if decide (tx_id r = id0) then set_bank_response nw d r else r).
  split; [apply list_elem_of_fmap; eauto|].
  destruct (decide _); cbn; auto.
Qed.

Ltac unchanged_tables Hpc :=
  split;
    [ intros k; unfold pending_use; cbn [at_pc pc]; rewrite ?Hpc;
      repeat case_decide; split; lia
    | split;
      [ intros pl' Hpl'; exists pl'; split; [exact Hpl'|]; split; [reflexivity|];
        unfold pending_use; cbn [at_pc pc]; rewrite ?Hpc; repeat case_decide; lia
      | split; [intros ? ? [=] | auto] ] ].

Lemma segment_counter rt nw links txs t links' txs' p :
  segment rt nw links txs t = (links', txs', p) ->
  (forall id, live_tx (pc t) = Some id ->
     forall r, r ∈ txs -> tx_id r = id -> tx_status r = processing) ->
  (forall pl id, held (pc t) = Some (pl, id) -> recorded_for txs id (pl_id pl)) ->
  (forall k,
     (length (completed_of k txs) <= length (completed_of k txs'))%nat
     /\ (pending_use k (at_pc t p) + length (completed_of k txs)
         <= pending_use k t + length (completed_of k txs'))%nat)
  /\ (forall pl', pl' ∈ links' ->
        exists pl, pl ∈ links /\ pl_id pl' = pl_id pl
          /\ pl_current_uses pl' + Z.of_nat (pending_use (pl_id pl) (at_pc t p))
             + Z.of_nat (length (completed_of (pl_id pl) txs))
             <= pl_current_uses pl + Z.of_nat (pending_use (pl_id pl) t)
                + Z.of_nat (length (completed_of (pl_id pl) txs')))
  /\ (forall pl id, held p = Some (pl, id) -> recorded_for txs' id (pl_id pl))
  /\ (forall id k, recorded_for txs id k -> recorded_for txs' id k).
Proof.
  unfold segment. intros Hseg Hproc Hheld.
  destruct (pc t) as [|rows|pl id created|pl id created d|pl id created d|r] eqn:Hpc.
  - split_matches Hseg; injection Hseg as <- <- <-; unchanged_tables Hpc.
  - destruct rows as [|paymentLink rest].
    { injection Hseg as <- <- <-. unchanged_tables Hpc. }
    destruct (link_precheck nw paymentLink).
    { injection Hseg as <- <- <-. unchanged_tables Hpc. }
    destruct (card_expired _ _ _ _).
    { injection Hseg as <- <- <-. unchanged_tables Hpc. }
    destruct (insert_transaction _ _ _ _) as [txs1|err] eqn:Hins.
    2:{ injection Hseg as <- <- <-. unchanged_tables Hpc. }
    injection Hseg as <- <- <-.
    destruct (insert_transaction_Ok _ _ _ _ _ Hins) as (-> & _ & _).
    assert (Hsame : forall k,
              completed_of k (txs ++ [new_transaction rt nw (uuid (env t)) paymentLink (body t)])
              = completed_of k txs).
    { intros k. rewrite completed_of_snoc. rewrite decide_False by (cbn; intros [_ [=]]).
      apply app_nil_r. }
    split; [|split; [|split]].
    + intros k. rewrite Hsame. unfold pending_use. cbn [at_pc pc]. rewrite Hpc. lia.
    + intros pl' Hpl'. exists pl'. split; [exact Hpl'|]. split; [reflexivity|].
      rewrite Hsame. unfold pending_use. cbn [at_pc pc]. rewrite Hpc. lia.
    + intros pl0 id0 [= <- <-]. eexists. split; [apply elem_of_app; right; left|].
      cbn. auto.
    + intros id0 k (r & Hr & Hid & Hl). exists r. split; [apply elem_of_app; auto | auto].
  - injection Hseg as <- <- <-.
    split; [|split; [|split]].
    + intros k. unfold pending_use. cbn [at_pc pc]. rewrite Hpc. lia.
    + intros pl' Hpl'. exists pl'. split; [exact Hpl'|]. split; [reflexivity|].
      unfold pending_use. cbn [at_pc pc]. rewrite Hpc. lia.
    + intros pl0 id0 [= <- <-]. apply Hheld. reflexivity.
    + auto.
  - destruct (update_transaction _ _ _ _ _) as [txs2|err] eqn:Hup.
    2:{ injection Hseg as <- <- <-. unchanged_tables Hpc. }
    unfold update_transaction in Hup. destruct (update_fault (env t)); [discriminate|].
    apply db_update_Ok in Hup. subst txs2.
    assert (Hfin := fun k => completed_of_finalize nw d id k txs (Hproc id eq_refl)).
    cbv zeta in Hfin.
    assert (Hrec : recorded_for txs id (pl_id pl)) by (apply Hheld; reflexivity).
    assert (Hkeep : forall id0 k, recorded_for txs id0 k ->
              recorded_for ((fun r => if decide (tx_id r = id)
                                      then set_bank_response nw d r else r) <$> txs) id0 k)
      by (intros; apply recorded_for_finalize; assumption).
    destruct (status d) eqn:Hd; injection Hseg as <- <- <-.
    1,2,4,5:
      (split; [|split; [|split; [intros ? ? [=] | exact Hkeep]]];
       [ intros k; destruct (Hfin k) as [Hle _]; unfold pending_use; cbn [at_pc pc];
         rewrite Hpc; lia
       | intros pl' Hpl'; exists pl'; split; [exact Hpl'|]; split; [reflexivity|];
         destruct (Hfin (pl_id pl')) as [Hle _]; unfold pending_use; cbn [at_pc pc];
         rewrite Hpc; lia ]).
    split; [|split; [|split; [intros ? ? [=] | exact Hkeep]]].
    + intros k. destruct (Hfin k) as [Hle Hlt]. split; [exact Hle|].
      unfold pending_use. cbn [at_pc pc]. rewrite Hpc.
      case_decide as Hk; [|lia]. subst k. specialize (Hlt eq_refl Hrec). lia.
    + intros pl' Hpl'. exists pl'. split; [exact Hpl'|]. split; [reflexivity|].
      destruct (Hfin (pl_id pl')) as [Hle Hlt].
      unfold pending_use. cbn [at_pc pc]. rewrite Hpc.
      case_decide as Hk; [|lia]. rewrite <- Hk in Hlt. specialize (Hlt eq_refl Hrec).
      rewrite <- Hk. lia.
  - destruct (update_link_uses _ _ _ _) as [links2|err] eqn:Hup.
    2:{ injection Hseg as <- <- <-. unchanged_tables Hpc. }
    injection Hseg as <- <- <-.
    unfold update_link_uses in Hup. destruct (uses_fault (env t)); [discriminate|].
    apply db_update_Ok in Hup. subst links2.
    split; [|split; [|split; [intros ? ? [=] | auto]]].
    + intros k. unfold pending_use. cbn [at_pc pc]. rewrite Hpc. case_decide; lia.
    + intros pl' Hpl'. apply list_elem_of_fmap in Hpl' as (x & -> & Hx).
      exists x. split; [exact Hx|].
      unfold pending_use. cbn [at_pc pc]. rewrite Hpc.
      destruct (decide (pl_id x = pl_id pl)) as [Hk|Hk].
      * cbn. split; [reflexivity|]. rewrite decide_True by auto. lia.
      * split; [reflexivity|]. case_decide; lia.
  - injection Hseg as <- <- <-. unchanged_tables Hpc.
Qed.

Lemma step_counter rt w ev : ledger_inv w -> counter_inv w -> counter_inv (step rt w ev).
Proof.
  intros (_ & Hwait & _) (HA & HB & HC). unfold counter_inv.
  destruct ev as [dt|user b e|user l b fault|l b e|i]; cbn [step].
  - auto.
  - cbn [payment_links transactions tasks]. split; [exact HA|]. split; [|exact HC].
    intros pl Hpl.
    destruct (create_link_links rt (now w) user b e (payment_links w))
      as [Heq | (x & Heq & -> & _)]; rewrite Heq in Hpl; [auto|].
    apply elem_of_app in Hpl as [Hpl | Hpl]; [auto|].
    apply list_elem_of_singleton in Hpl. subst pl.
    specialize (HA (pl_id (new_payment_link rt (now w) user b e))). cbn in HA |- *. lia.
  - cbn [payment_links transactions tasks]. split; [exact HA|]. split; [|exact HC].
    intros pl Hpl.
    destruct (update_link_links (now w) user l b fault (payment_links w))
      as [Heq | (d & a & Hup)]; [rewrite Heq in Hpl; auto|].
    unfold update_link_metadata in Hup. apply db_update_Ok in Hup. rewrite Hup in Hpl.
    apply list_elem_of_fmap in Hpl as (x & -> & Hx). specialize (HB x Hx).
    destruct (decide _); [cbn; exact HB | exact HB].
  - cbn [payment_links transactions tasks].
    assert (Hsum : forall k, pending_uses k (tasks w ++ [ {| linkId := l; body := b; env := e;
                                                            pc := AtStart |} ])
                             = pending_uses k (tasks w)).
    { intros k. unfold pending_uses. rewrite sum_list_with_app. cbn. lia. }
    split; [|split].
    + intros k. rewrite Hsum. apply HA.
    + intros pl Hpl. rewrite Hsum. apply HB, Hpl.
    + intros j t pl id Hj Hh.
      apply lookup_snoc_Some in Hj as [[_ Hj] | [_ <-]]; [eauto | discriminate].
  - destruct (tasks w !! i) as [t|] eqn:Hi; [|auto].
    destruct (segment rt (now w) (payment_links w) (transactions w) t)
      as [[links' txs'] p] eqn:Hseg.
    cbn [payment_links transactions tasks].
    destruct (segment_counter _ _ _ _ _ _ _ _ Hseg
                (fun id Hl => proj2 (Hwait i t id Hi Hl))
                (fun pl id => HC i t pl id Hi))
      as (Hcount & Hlinks & Hnew & Hkeep).
    assert (Hsum : forall k,
              (pending_uses k (<[i := at_pc t p]> (tasks w)) + pending_use k t
               = pending_uses k (tasks w) + pending_use k (at_pc t p))%nat)
      by (intros k; apply sum_list_with_insert, Hi).
    split; [|split].
    + intros k. specialize (Hsum k). specialize (HA k). destruct (Hcount k). lia.
    + intros pl' Hpl'. destruct (Hlinks pl' Hpl') as (pl & Hpl & Hid & Hle).
      rewrite Hid. specialize (Hsum (pl_id pl)). specialize (HB pl Hpl). lia.
    + intros j tj pl id Hj Hh.
      apply list_lookup_insert_Some in Hj as [(-> & <- & _) | [_ Hj]].
      * apply Hnew. exact Hh.
      * apply Hkeep. eauto.
Qed.

(** X21. The counter never overstates the payments.  In every world the
    server can reach, through any interleaving of the runs, [current_uses] of
    a link is at most the number of [completed] transactions of that link:
    a use is counted only after its transaction has been written as
    completed, and a completed transaction stays completed.  (The converse
    fails when runs interleave or a counter update is lost.) *)
Theorem uses_are_backed_by_payments rt w pl :
  reachable rt w ->
  pl ∈ payment_links w ->
  pl_current_uses pl <= Z.of_nat (length (completed_of (pl_id pl) (transactions w))).
Proof.
  intros (t0 & evs & ->) Hpl.
  assert (Hinv : ledger_inv (run rt (init t0) evs) /\ counter_inv (run rt (init t0) evs)).
  { apply (run_invariant rt (fun w => ledger_inv w /\ counter_inv w)).
    - intros w ev [Hl Hc]. split; [apply step_ledger, Hl | apply step_counter; assumption].
    - split.
      + split; [constructor|]. split.
        * intros i t id Hi. inversion Hi.
        * intros i j ti tj id Hi. inversion Hi.
      + split; [intros k; cbn; lia|]. split.
        * intros x Hx. inversion Hx.
        * intros i t x id Hi. inversion Hi. }
  destruct Hinv as [_ (_ & HB & _)]. specialize (HB pl Hpl). lia.
Qed.

(** X21, at the single-use link after the race: counter 1, two payments. *)
Lemma uses_are_backed_by_payments_witness :
  pl_current_uses (increment_uses Demo.t0
                     (new_payment_link Demo.rt Demo.t0 "merchant" Demo.once Demo.once_env))
  <= Z.of_nat (length (completed_of "0b9d6c2a-7e1f-4c3d-9a8b-6f5e4d3c2b1a"
                         (transactions Demo.raced))).
Proof.
  refine (uses_are_backed_by_payments Demo.rt Demo.raced
            (increment_uses Demo.t0
               (new_payment_link Demo.rt Demo.t0 "merchant" Demo.once Demo.once_env)) _ _).
  - exists Demo.t0, (CreateLink "merchant" Demo.once Demo.once_env :: Demo.race).
    reflexivity.
  - vm_compute. left.
Defined.
